(** * Isca: the Matsuno-Gill experiment script

    A shallow embedding of [exp/superrotation/superrotation_nzforcing.py]:
    the [MatsunoGillExperiment] class (constructor, diagnostic table,
    default namelist) and the module-level code that builds one experiment
    and runs it.

    Python dictionaries are mutable and shared by reference, so they live
    in a store ([heap]) and are named by locations; the framework calls the
    script makes ([compile], [Experiment.__init__], [Namelist],
    [set_resolution], [run]) are recorded in a log, and each of them may
    raise. *)

From stdpp Require Import gmap strings list fin_maps.

Open Scope string_scope.
Open Scope Z_scope.
Open Scope list_scope.

(** ** Values stored in a namelist section

    Scalars and lists, as they occur in the script.  A float literal is
    kept as the decimal it denotes, [VFloat m e] standing for [m * 10^e]
    with [m] free of trailing zeros ([200.e2] is [VFloat 2 4]): the script
    never computes with a float.  Nothing in the
    script mutates a list, so lists are plain values. *)

#[local] Set Warnings "-register-all".
Inductive value : Type :=
| VInt (z : Z)
| VFloat (m e : Z)
| VBool (b : bool)
| VStr (s : string)
| VList (vs : list value).

(** ** The store

    Two kinds of dictionary objects, after the docstring of the class
    ("a dictionary of dictionaries, each corresponding to a namelist"):
    a namelist section maps parameter names to values, and a namelist maps
    section names to (references to) sections. *)

Abbreviation loc := positive.
Abbreviation section_dict := (gmap string value).
Abbreviation namelist_dict := (gmap string loc).

Record heap : Type := Heap {
  h_maps : gmap loc namelist_dict;
  h_secs : gmap loc section_dict
}.

Definition empty_heap : heap := Heap ∅ ∅.

(** A new dict object gets an address no live object has. *)
Definition new_section (d : section_dict) (h : heap) : heap * loc :=
  let l := fresh (dom (h_secs h)) in
  (Heap (h_maps h) (<[l := d]> (h_secs h)), l).

Definition new_map (d : namelist_dict) (h : heap) : heap * loc :=
  let l := fresh (dom (h_maps h)) in
  (Heap (<[l := d]> (h_maps h)) (h_secs h), l).

(** A dict display [{k1: {...}, k2: {...}, ...}]: the inner dicts are
    built left to right, then the outer one. *)
Fixpoint new_sections (secs : list (string * section_dict)) (h : heap)
  : heap * list (string * loc) :=
  match secs with
  | [] => (h, [])
  | (k, d) :: rest =>
      let (h1, l) := new_section d h in
      let (h2, refs) := new_sections rest h1 in
      (h2, (k, l) :: refs)
  end.

Definition dict_literal (secs : list (string * section_dict)) (h : heap)
  : heap * loc :=
  let (h1, refs) := new_sections secs h in
  new_map (list_to_map refs) h1.

(** [d.update(o)]: every key of [o] is set in [d] to its value in [o]. *)
Definition dict_update (d o : section_dict) : section_dict := o ∪ d.

(** [for key in d]: the keys of [d], each once. *)
Definition dict_keys {V : Type} (d : gmap string V) : list string :=
  (map_to_list d).*1.

(** The Python expression [namelist[k]], read as the contents of the
    section it evaluates to. *)
Definition section_of (h : heap) (n : loc) (k : string) : option section_dict :=
  nd ← h_maps h !! n; s ← nd !! k; h_secs h !! s.

(** Every reference held by a namelist names a live section. *)
Definition heap_closed (h : heap) : Prop :=
  map_Forall (λ _ (nd : namelist_dict),
                map_Forall (λ _ s, is_Some (h_secs h !! s)) nd)
             (h_maps h).

(** ** The merge loop (lines 59-63)

    One turn of
<<
    for key in namelist_mod:
        if key in namelist:
            namelist[key].update(namelist_mod[key])
        else:
            namelist[key] = namelist_mod[key]
>>
    [None] is a state no Python run reaches: a reference without an
    object, or a key of the loop missing from the dict it came from. *)
Definition merge_key (namelist namelist_mod : loc) (key : string) (h : heap)
  : option heap :=
  nd ← h_maps h !! namelist;
  md ← h_maps h !! namelist_mod;
  match nd !! key with
  | Some t =>
      s ← md !! key;
      td ← h_secs h !! t;
      sd ← h_secs h !! s;
      Some (Heap (h_maps h) (<[t := dict_update td sd]> (h_secs h)))
  | None =>
      s ← md !! key;
      Some (Heap (<[namelist := <[key := s]> nd]> (h_maps h)) (h_secs h))
  end.

Fixpoint merge_keys (namelist namelist_mod : loc) (keys : list string)
  (h : heap) : option heap :=
  match keys with
  | [] => Some h
  | key :: rest =>
      h1 ← merge_key namelist namelist_mod key h;
      merge_keys namelist namelist_mod rest h1
  end.

Definition merge_namelist (namelist namelist_mod : loc) (h : heap)
  : option heap :=
  md ← h_maps h !! namelist_mod;
  merge_keys namelist namelist_mod (dict_keys md) h.

(** ** The diagnostic table

    Modelled from the spec: [DiagTable], [add_file] and [add_field] of the
    framework are not in the script; the spec's data model has an ordered
    list of (module, field name, averaging flag) triples under a named
    output file with a cadence.  A registration records the arguments of
    the call; [None] is a keyword argument the call leaves out. *)

Record diag_file : Type := DiagFile {
  file_name : string;
  file_freq : Z;
  file_units : string;
  file_time_units : option string
}.

Record diag_field : Type := DiagField {
  field_module : string;
  field_name : string;
  field_time_avg : option bool
}.

Record DiagTable : Type := MkDiagTable {
  files : list diag_file;
  fields : list diag_field
}.

Definition DiagTable_new : DiagTable := MkDiagTable [] [].

Definition add_file (name : string) (freq : Z) (units : string)
  (time_units : option string) (d : DiagTable) : DiagTable :=
  MkDiagTable (files d ++ [DiagFile name freq units time_units]) (fields d).

Definition add_field (module name : string) (time_avg : option bool)
  (d : DiagTable) : DiagTable :=
  MkDiagTable (files d) (fields d ++ [DiagField module name time_avg]).

(** Lines 69-89. *)
Definition build_diag_table (output_freq : Z) (output_avg : bool) : DiagTable :=
  let diag := DiagTable_new in
  let diag := add_file "atmos_monthly" output_freq "days" (Some "days") diag in
  let diag := add_field "dynamics" "ps" (Some output_avg) diag in
  let diag := add_field "dynamics" "bk" None diag in
  let diag := add_field "dynamics" "pk" None diag in
  let diag := add_field "dynamics" "ucomp" (Some output_avg) diag in
  let diag := add_field "dynamics" "vcomp" (Some output_avg) diag in
  let diag := add_field "dynamics" "temp" (Some output_avg) diag in
  let diag := add_field "dynamics" "vor" (Some output_avg) diag in
  let diag := add_field "dynamics" "div" (Some output_avg) diag in
  let diag := add_field "hs_forcing" "q_eqf" (Some output_avg) diag in
  diag.

(** A registration without its averaging flag. *)
Definition field_id (f : diag_field) : string * string :=
  (field_module f, field_name f).

(** ** The default namelist (lines 91-156) *)

Definition main_nml : section_dict :=
  {[ "dt_atmos" := VInt 300;
     "days" := VInt 1800;
     "current_time" := VInt 0;
     "calendar" := VStr "no_calendar" ]}.

Definition atmosphere_nml : section_dict :=
  {[ "idealized_moist_model" := VBool false ]}.

Definition spectral_dynamics_nml : section_dict :=
  {[ "damping_order" := VInt 4;
     "water_correction_limit" := VFloat 2 4;
     "reference_sea_level_press" := VFloat 1 5;
     "valid_range_t" := VList [VFloat 1 2; VFloat 8 2];
     "initial_sphum" := VFloat 0 0;
     "vert_coord_option" := VStr "uneven_sigma";
     "scale_heights" := VFloat 6 0;
     "exponent" := VFloat 75 (-1);
     "surf_res" := VFloat 5 (-1) ]}.

Definition hs_forcing_nml : section_dict :=
  {[ "t_zero" := VFloat 315 0;
     "t_strat" := VFloat 2 2;
     "delh" := VFloat 4 1;
     "delv" := VFloat 1 1;
     "eps" := VFloat 0 0;
     "sigma_b" := VFloat 7 (-1);
     "ka" := VFloat (-4) 1;
     "ks" := VFloat (-4) 0;
     "kf" := VFloat (-1) 0;
     "do_conserve_energy" := VBool true ]}.

Definition atf_forcing_nml : section_dict :=
  {[ "q0atf" := VFloat 0 0 ]}.

Definition diag_manager_nml : section_dict :=
  {[ "mix_snapshot_average_fields" := VBool false ]}.

Definition fms_nml : section_dict :=
  {[ "domains_stack_size" := VInt 600000 ]}.

Definition fms_io_nml : section_dict :=
  {[ "threading_write" := VStr "single";
     "fileset_write" := VStr "single" ]}.

Definition default_sections : list (string * section_dict) :=
  [ ("main_nml", main_nml);
    ("atmosphere_nml", atmosphere_nml);
    ("spectral_dynamics_nml", spectral_dynamics_nml);
    ("hs_forcing_nml", hs_forcing_nml);
    ("atf_forcing_nml", atf_forcing_nml);
    ("diag_manager_nml", diag_manager_nml);
    ("fms_nml", fms_nml);
    ("fms_io_nml", fms_io_nml) ].

Definition default_namelist (h : heap) : heap * loc :=
  dict_literal default_sections h.

(** The default contents of a section, by name. *)
Definition default_section (k : string) : option section_dict :=
  (list_to_map default_sections : gmap string section_dict) !! k.

(** Lines 58-63: a new default namelist, then the merge. *)
Definition build_namelist (namelist_mod : loc) (h : heap) : option (heap * loc) :=
  let (h1, namelist) := default_namelist h in
  h2 ← merge_namelist namelist namelist_mod h1;
  Some (h2, namelist).

(** ** Framework calls and the log

    The framework ([isca]) is outside the script.  A call to it is
    recorded in the log and returns or raises as the environment decides:
    [ext c log] is the exception the call [c] raises after the history
    [log], if it raises one.  The two attribute assignments of the
    constructor are recorded too, so that their place among the calls can
    be stated. *)

Inductive codebase : Type :=
| from_directory (directory : string)
| from_repo (repo commit : string).

Record exn : Type := Exn { exn_class : string; exn_message : string }.

Inductive call : Type :=
| CFromDirectory (directory : string)
| CCompile (cb : codebase)
| CExperimentInit (name : string) (cb : codebase)
| CNamelist (name : string) (namelist : loc)
| CSetResolution (name : string) (args : list value)
| CRun (name : string) (i num_cores : Z) (use_restart : bool)
       (mpirun_opts : string).

Inductive event : Type :=
| ECall (c : call)
| ESetDiagTable (name : string) (d : DiagTable)
| ESetNamelist (name : string) (namelist : loc).

Record world : Type := World {
  w_heap : heap;
  w_log : list event
}.

Inductive result (A : Type) : Type :=
| Ok (a : A)
| Raise (e : exn)
| Stuck.
Arguments Ok {A} a.
Arguments Raise {A} e.
Arguments Stuck {A}.

Definition M (A : Type) : Type := world → world * result A.

#[global] Instance M_ret : MRet M := λ A a w, (w, Ok a).
#[global] Instance M_bind : MBind M := λ A B f m w,
  match m w with
  | (w1, Ok a) => f a w1
  | (w1, Raise e) => (w1, Raise e)
  | (w1, Stuck) => (w1, Stuck)
  end.

Definition emit (e : event) : M unit :=
  λ w, (World (w_heap w) (w_log w ++ [e]), Ok ()).

Definition alloc {A : Type} (f : heap → heap * A) : M A :=
  λ w, let (h, a) := f (w_heap w) in (World h (w_log w), Ok a).

Definition on_heap {A : Type} (f : heap → option (heap * A)) : M A :=
  λ w, match f (w_heap w) with
       | Some (h, a) => (World h (w_log w), Ok a)
       | None => (w, Stuck)
       end.

Definition is_attach (e : event) : Prop :=
  match e with
  | ESetDiagTable _ _ | ESetNamelist _ _ => True
  | ECall _ => False
  end.

Definition is_run (e : event) : Prop :=
  match e with
  | ECall (CRun _ _ _ _ _) => True
  | _ => False
  end.

Definition is_set_resolution (e : event) : Prop :=
  match e with
  | ECall (CSetResolution _ _) => True
  | _ => False
  end.

(** The experiment handle.
    Modelled from the spec: [Experiment] is the framework's class; its
    handle "binds a name, a compiled-code reference, the configuration
    mapping, and the diagnostic spec".  [Namelist(d)] wraps the dict [d]
    it is given, so the handle holds the reference to the merged dict.
    What [set_resolution] changes in the handle is the framework's
    business: the script only makes the call, which the log records. *)
Record experiment : Type := Experiment {
  exp_name : string;
  exp_codebase : codebase;
  diag_table : option DiagTable;
  namelist : option loc
}.

(** What the class statement leaves behind: the default arguments of
    [__init__] are evaluated once, when the [def] is executed, and every
    call that omits an argument gets the same object. *)
Record class_env : Type := ClassEnv {
  default_codebase : codebase;
  default_namelist_mod : loc
}.

(** The arguments of one call of the constructor; [None] is an argument
    left out.  [**kwargs] maps a keyword to its value; the constructor
    unpacks the value with [*], so it is a sequence. *)
Record init_args : Type := InitArgs {
  a_name : string;
  a_codebase : option codebase;
  a_output_freq : option Z;
  a_namelist_mod : option loc;
  a_kwargs : gmap string (list value)
}.

Definition NCORES : Z := 16.
Definition RESOLUTION : list value := [VStr "T42"; VInt 25].

(** The [namelist_mod] display of line 161. *)
Definition script_namelist_mod : list (string * section_dict) :=
  [ ("atf_forcing_nml",
      {[ "q0atf" := VFloat 1 0;
         "cfatf" := VInt 0;
         "katf" := VInt 2;
         "dphiatf" := VFloat 1 1 ]});
    ("main_nml",
      {[ "days" := VInt 18000 ]}) ].

Section Script.

(** The environment: which framework calls raise, and [$GFDL_BASE]. *)
Variable ext : call → list event → option exn.
Variable GFDL_BASE : string.

Definition external (c : call) : M unit :=
  λ w, let w1 := World (w_heap w) (w_log w ++ [ECall c]) in
       match ext c (w_log w) with
       | None => (w1, Ok ())
       | Some e => (w1, Raise e)
       end.

(** Line 42-43, the [def] statement: the defaults [codebase] and
    [namelist_mod]. *)
Definition define_class : M class_env :=
  external (CFromDirectory GFDL_BASE);;
  m ← alloc (new_map ∅);
  mret (ClassEnv (from_directory GFDL_BASE) m).

Definition namelist_mod_of (env : class_env) (args : init_args) : loc :=
  default (default_namelist_mod env) (a_namelist_mod args).

Definition codebase_of (env : class_env) (args : init_args) : codebase :=
  default (default_codebase env) (a_codebase args).

Definition output_freq_of (args : init_args) : Z :=
  default 90 (a_output_freq args).

(** The events of one construction, in the order of the source. *)
Definition ev_compile (env : class_env) (args : init_args) : event :=
  ECall (CCompile (codebase_of env args)).
Definition ev_super (env : class_env) (args : init_args) : event :=
  ECall (CExperimentInit (a_name args) (codebase_of env args)).
Definition init_diag (args : init_args) : DiagTable :=
  build_diag_table (output_freq_of args) false.
Definition ev_diag (args : init_args) : event :=
  ESetDiagTable (a_name args) (init_diag args).
Definition ev_wrap (args : init_args) (n : loc) : event :=
  ECall (CNamelist (a_name args) n).
Definition ev_namelist (args : init_args) (n : loc) : event :=
  ESetNamelist (a_name args) n.
Definition ev_resolution (args : init_args) (r : list value) : event :=
  ECall (CSetResolution (a_name args) r).

Definition handle (env : class_env) (args : init_args) (n : loc)
  : experiment :=
  Experiment (a_name args) (codebase_of env args) (Some (init_diag args))
             (Some n).

(** Lines 42-67. *)
Definition __init__ (env : class_env) (args : init_args) : M experiment :=
  let name := a_name args in
  let codebase := codebase_of env args in
  let output_freq := output_freq_of args in
  let namelist_mod := namelist_mod_of env args in
  external (CCompile codebase);;
  external (CExperimentInit name codebase);;
  let diag := build_diag_table output_freq false in
  emit (ESetDiagTable name diag);;
  namelist ← on_heap (build_namelist namelist_mod);
  external (CNamelist name namelist);;
  emit (ESetNamelist name namelist);;
  let self := Experiment name codebase (Some diag) (Some namelist) in
  match a_kwargs args !! "resolution" with
  | Some r => external (CSetResolution name r);; mret self
  | None => mret self
  end.

(** [exp.run(i, num_cores=..., use_restart=..., mpirun_opts=...)] *)
Definition run (self : experiment) (i num_cores : Z) (use_restart : bool)
  (mpirun_opts : string) : M unit :=
  external (CRun (exp_name self) i num_cores use_restart mpirun_opts).

Definition script_args (m : loc) : init_args :=
  InitArgs "superrotation_nzforcing_q1_long" None (Some 1000) (Some m)
           {[ "resolution" := RESOLUTION ]}.

(** The module down to line 164: the class statement and the
    construction of [exp]. *)
Definition module_body : M experiment :=
  env ← define_class;
  m ← alloc (dict_literal script_namelist_mod);
  __init__ env (script_args m).

(** The whole module: [exp] is built and, when the module is the entry
    point, run once (lines 168-169).  [name__] is [__name__], [argv] is
    [sys.argv]. *)
Definition script (name__ : string) (argv : list string) : M experiment :=
  exp ← module_body;
  if decide (name__ = "__main__")
  then run exp 1 NCORES false (String.concat " " (tail argv));; mret exp
  else mret exp.

(** Constructions one after the other, the caller going on after a
    construction that raises. *)
Fixpoint construct_all (env : class_env) (calls : list init_args) (w : world)
  : world :=
  match calls with
  | [] => w
  | args :: rest => construct_all env rest (__init__ env args w).1
  end.

(** The runs of the constructor, one rule per place where it can stop:
    the end of the body, or a framework call that raises.  [new] is what
    the run adds to the log. *)
Inductive init_outcome (env : class_env) (args : init_args) (w : world)
  : heap → list event → result experiment → Prop :=
| init_compile_raises e :
    ext (CCompile (codebase_of env args)) (w_log w) = Some e →
    init_outcome env args w (w_heap w) [ev_compile env args] (Raise e)
| init_super_raises e :
    ext (CCompile (codebase_of env args)) (w_log w) = None →
    ext (CExperimentInit (a_name args) (codebase_of env args))
        (w_log w ++ [ev_compile env args]) = Some e →
    init_outcome env args w (w_heap w)
      [ev_compile env args; ev_super env args] (Raise e)
| init_stuck :
    ext (CCompile (codebase_of env args)) (w_log w) = None →
    ext (CExperimentInit (a_name args) (codebase_of env args))
        (w_log w ++ [ev_compile env args]) = None →
    build_namelist (namelist_mod_of env args) (w_heap w) = None →
    init_outcome env args w (w_heap w)
      [ev_compile env args; ev_super env args; ev_diag args] Stuck
| init_wrap_raises h n e :
    ext (CCompile (codebase_of env args)) (w_log w) = None →
    ext (CExperimentInit (a_name args) (codebase_of env args))
        (w_log w ++ [ev_compile env args]) = None →
    build_namelist (namelist_mod_of env args) (w_heap w) = Some (h, n) →
    ext (CNamelist (a_name args) n)
        (w_log w ++ [ev_compile env args; ev_super env args; ev_diag args])
      = Some e →
    init_outcome env args w h
      [ev_compile env args; ev_super env args; ev_diag args; ev_wrap args n]
      (Raise e)
| init_returns h n :
    ext (CCompile (codebase_of env args)) (w_log w) = None →
    ext (CExperimentInit (a_name args) (codebase_of env args))
        (w_log w ++ [ev_compile env args]) = None →
    build_namelist (namelist_mod_of env args) (w_heap w) = Some (h, n) →
    ext (CNamelist (a_name args) n)
        (w_log w ++ [ev_compile env args; ev_super env args; ev_diag args])
      = None →
    a_kwargs args !! "resolution" = None →
    init_outcome env args w h
      [ev_compile env args; ev_super env args; ev_diag args; ev_wrap args n;
       ev_namelist args n]
      (Ok (handle env args n))
| init_resolution_raises h n r e :
    ext (CCompile (codebase_of env args)) (w_log w) = None →
    ext (CExperimentInit (a_name args) (codebase_of env args))
        (w_log w ++ [ev_compile env args]) = None →
    build_namelist (namelist_mod_of env args) (w_heap w) = Some (h, n) →
    ext (CNamelist (a_name args) n)
        (w_log w ++ [ev_compile env args; ev_super env args; ev_diag args])
      = None →
    a_kwargs args !! "resolution" = Some r →
    ext (CSetResolution (a_name args) r)
        (w_log w ++ [ev_compile env args; ev_super env args; ev_diag args;
                     ev_wrap args n; ev_namelist args n]) = Some e →
    init_outcome env args w h
      [ev_compile env args; ev_super env args; ev_diag args; ev_wrap args n;
       ev_namelist args n; ev_resolution args r]
      (Raise e)
| init_returns_resolved h n r :
    ext (CCompile (codebase_of env args)) (w_log w) = None →
    ext (CExperimentInit (a_name args) (codebase_of env args))
        (w_log w ++ [ev_compile env args]) = None →
    build_namelist (namelist_mod_of env args) (w_heap w) = Some (h, n) →
    ext (CNamelist (a_name args) n)
        (w_log w ++ [ev_compile env args; ev_super env args; ev_diag args])
      = None →
    a_kwargs args !! "resolution" = Some r →
    ext (CSetResolution (a_name args) r)
        (w_log w ++ [ev_compile env args; ev_super env args; ev_diag args;
                     ev_wrap args n; ev_namelist args n]) = None →
    init_outcome env args w h
      [ev_compile env args; ev_super env args; ev_diag args; ev_wrap args n;
       ev_namelist args n; ev_resolution args r]
      (Ok (handle env args n)).

(** In [new], logged after [log0], every framework call returned. *)
Definition all_returned (log0 new : list event) : Prop :=
  ∀ pre c post, new = pre ++ ECall c :: post → ext c (log0 ++ pre) = None.

(** A computation without a handler: when it raises, the exception is
    the one its last framework call raised, and every call before that
    one returned; otherwise every call returned. *)
Definition unhandled {A : Type} (log0 new : list event) (r : result A)
  : Prop :=
  match r with
  | Raise e =>
      ∃ pre c, new = pre ++ [ECall c]
               ∧ all_returned log0 pre
               ∧ ext c (log0 ++ pre) = Some e
  | _ => all_returned log0 new
  end.

Definition transparent {A : Type} (m : M A) : Prop :=
  ∀ w, ∃ new, w_log (m w).1 = w_log w ++ new
              ∧ unhandled (w_log w) new (m w).2.

End Script.

(** The configuration mapping of a handle, section by section. *)
Definition config (h : heap) (e : experiment) (k : string) : option section_dict :=
  n ← namelist e; section_of h n k.

(** The object [namelist[k]] of a handle: the section itself, not its
    contents. *)
Definition section_ref (h : heap) (e : experiment) (k : string) : option loc :=
  n ← namelist e; nd ← h_maps h !! n; nd !! k.

(** The merge of lines 59-63 on contents alone: a section on both sides
    is the default updated by the override, a section on one side is kept
    as it is. *)
Definition two_level_merge (override dflt : option section_dict)
  : option section_dict :=
  union_with (λ sd dd, Some (dict_update dd sd)) override dflt.

(** The compile calls of a log. *)
Definition is_compile (e : event) : bool :=
  match e with
  | ECall (CCompile _) => true
  | _ => false
  end.

Definition compile_count (log : list event) : nat :=
  length (filter (λ e, is_compile e = true) log).

(** An environment in which no framework call raises. *)
Definition quiet : call → list event → option exn := λ _ _, None.

(** An environment in which the compilation fails and every other call
    returns. *)
Definition compile_error : exn := Exn "CalledProcessError" "compile".

Definition compile_fails : call → list event → option exn :=
  λ c _, match c with
         | CCompile _ => Some compile_error
         | _ => None
         end.

(** ** A store to run the constructor on

    The class statement has been executed with [$GFDL_BASE = "/base"], so
    the default [namelist_mod] is the empty dict at address 1; a second
    mapping overrides [days] in [main_nml] and brings a section
    [extra_nml] the defaults do not have. *)

Definition sample_env : class_env := ClassEnv (from_directory "/base") 1%positive.

Definition sample_main : section_dict := {[ "days" := VInt 18000 ]}.
Definition sample_extra : section_dict := {[ "flag" := VBool true ]}.

Definition sample_namelist_mod : list (string * section_dict) :=
  [ ("main_nml", sample_main); ("extra_nml", sample_extra) ].

Definition sample_mod_dict : namelist_dict :=
  {[ "main_nml" := 1%positive; "extra_nml" := 2%positive ]}.

Definition sample_heap : heap :=
  (dict_literal sample_namelist_mod (new_map ∅ empty_heap).1).1.

Definition sample_mod : loc :=
  (dict_literal sample_namelist_mod (new_map ∅ empty_heap).1).2.

Definition sample_world : world := World sample_heap [].

Definition sample_args : init_args :=
  InitArgs "first" None None (Some sample_mod) ∅.

Definition sample_args' : init_args :=
  InitArgs "second" None (Some 30) None {[ "resolution" := RESOLUTION ]}.

(** What lines 58-63 leave on the sample store, and the namelist they
    return. *)
Definition sample_built : heap * loc :=
  default (sample_heap, 1%positive) (build_namelist sample_mod sample_heap).

Definition sample_built_dict : namelist_dict :=
  default ∅ (h_maps sample_built.1 !! sample_built.2).

(** An environment in which the default codebase cannot be built. *)
Definition no_base_error : exn := Exn "KeyError" "GFDL_BASE".

Definition from_directory_fails : call → list event → option exn :=
  λ c _, match c with
         | CFromDirectory _ => Some no_base_error
         | _ => None
         end.

(** * Properties *)

(** ** Allocation *)

Lemma new_section_spec d h h1 l :
  new_section d h = (h1, l) →
  h_secs h !! l = None
  ∧ h_maps h1 = h_maps h ∧ h_secs h1 = <[l := d]> (h_secs h).
Proof.
  unfold new_section. intros [= <- <-]. simpl.
  split; [apply not_elem_of_dom, is_fresh | done].
Qed.

Lemma new_map_spec d h h1 l :
  new_map d h = (h1, l) →
  h_maps h !! l = None
  ∧ h_maps h1 = <[l := d]> (h_maps h) ∧ h_secs h1 = h_secs h.
Proof.
  unfold new_map. intros [= <- <-]. simpl.
  split; [apply not_elem_of_dom, is_fresh | done].
Qed.

Lemma new_sections_spec secs : ∀ h h1 refs,
  new_sections secs h = (h1, refs) →
  h_maps h1 = h_maps h
  ∧ refs.*1 = secs.*1
  ∧ (∀ l, is_Some (h_secs h !! l) → h_secs h1 !! l = h_secs h !! l)
  ∧ (∀ k l, (k, l) ∈ refs →
       h_secs h !! l = None ∧ ∃ d, (k, d) ∈ secs ∧ h_secs h1 !! l = Some d)
  ∧ NoDup refs.*2.
Proof.
  induction secs as [|[k0 d0] rest IH]; intros h h1 refs; cbn [new_sections].
  - intros [= <- <-]. split_and!; try done.
    + intros k l Hin. by apply elem_of_nil in Hin.
    + constructor.
  - destruct (new_section d0 h) as [ha l0] eqn:Ha.
    destruct (new_sections rest ha) as [hb refs'] eqn:Hb.
    intros [= <- <-].
    apply new_section_spec in Ha as (Hl0 & Hm & Hs).
    apply IH in Hb as (Hm' & Hk & Hfr & Hin & Hnd).
    assert (Hsub : ∀ l, is_Some (h_secs h !! l) → is_Some (h_secs ha !! l)).
    { intros l Hl. rewrite Hs. rewrite lookup_insert. by case_decide. }
    assert (Hl0a : is_Some (h_secs ha !! l0)).
    { rewrite Hs, lookup_insert_eq. by eexists. }
    split; [congruence |].
    split; [simpl; by f_equal |].
    split.
    { intros l Hl. rewrite Hfr by auto. rewrite Hs.
      apply lookup_insert_ne. intros ->. rewrite Hl0 in Hl. by destruct Hl. }
    split.
    { intros k l [[= -> ->] | Hkl]%elem_of_cons.
      - split; [done |]. exists d0. split; [left |].
        rewrite Hfr by done. rewrite Hs. apply lookup_insert_eq.
      - destruct (Hin _ _ Hkl) as (Hnot & d & Hd & Hlk).
        split.
        + destruct (h_secs h !! l) eqn:E; [| done].
          destruct (Hsub l) as [x Hx]; [by eexists | congruence].
        + exists d. split; [by right | done]. }
    simpl. constructor; [| done].
    intros ((k & l) & -> & Hkl)%list_elem_of_fmap. simpl in *.
    destruct (Hin _ _ Hkl) as (Hnot & _).
    rewrite Hnot in Hl0a. by destruct Hl0a.
Qed.

Lemma snd_inj_of_NoDup {A B : Type} (l : list (A * B)) a a' b :
  NoDup l.*2 → (a, b) ∈ l → (a', b) ∈ l → a = a'.
Proof.
  induction l as [|[x y] l IH]; simpl.
  - intros _ Hin. by apply elem_of_nil in Hin.
  - intros [Hy Hnd]%NoDup_cons [[= -> ->] | H1]%elem_of_cons
      [[= ->] | H2]%elem_of_cons; try done.
    + exfalso. apply Hy. apply list_elem_of_fmap. by exists (a', y).
    + simplify_eq. exfalso. apply Hy. apply list_elem_of_fmap. by exists (a, y).
    + by apply IH.
Qed.

(** A dict display allocates its sections and itself, and touches nothing
    that was there before. *)
Lemma dict_literal_spec secs h h1 n :
  NoDup secs.*1 →
  dict_literal secs h = (h1, n) →
  ∃ D : namelist_dict,
    h_maps h !! n = None
    ∧ h_maps h1 = <[n := D]> (h_maps h)
    ∧ (∀ l, is_Some (h_secs h !! l) → h_secs h1 !! l = h_secs h !! l)
    ∧ (∀ k, D !! k = None ↔ (list_to_map secs : gmap string section_dict) !! k = None)
    ∧ (∀ k t, D !! k = Some t →
         h_secs h !! t = None
         ∧ ∃ d, (list_to_map secs : gmap string section_dict) !! k = Some d
                ∧ h_secs h1 !! t = Some d)
    ∧ (∀ k k' t, D !! k = Some t → D !! k' = Some t → k = k').
Proof.
  intros Hnd. unfold dict_literal.
  destruct (new_sections secs h) as [ha refs] eqn:Ha.
  intros Hb. apply new_map_spec in Hb as (Hn & Hm & Hs).
  apply new_sections_spec in Ha as (Hm' & Hk & Hfr & Hin & Hnd2).
  assert (Hnd1 : NoDup refs.*1) by (by rewrite Hk).
  exists (list_to_map refs). rewrite Hs.
  split; [by rewrite <- Hm' |].
  split; [by rewrite Hm, Hm' |].
  split; [done |].
  split.
  { intros k. rewrite <- !not_elem_of_list_to_map. by rewrite Hk. }
  split.
  { intros k t Hkt%elem_of_list_to_map_2.
    destruct (Hin _ _ Hkt) as (Hnot & d & Hd & Hlk).
    split; [done |]. exists d. split; [| done].
    by apply elem_of_list_to_map_1. }
  intros k k' t H1%elem_of_list_to_map_2 H2%elem_of_list_to_map_2.
  by eapply snd_inj_of_NoDup.
Qed.

Lemma default_sections_NoDup : NoDup default_sections.*1.
Proof. apply (bool_decide_unpack _). by vm_compute. Qed.

Lemma script_namelist_mod_NoDup : NoDup script_namelist_mod.*1.
Proof. apply (bool_decide_unpack _). by vm_compute. Qed.

(** Allocation leaves no dangling reference behind. *)
Lemma new_map_empty_closed h :
  heap_closed h → heap_closed (new_map ∅ h).1.
Proof.
  intros Hcl l nd Hl k s Hk. simpl in *.
  rewrite lookup_insert in Hl. case_decide.
  - injection Hl as <-. by rewrite lookup_empty in Hk.
  - apply (Hcl _ _ Hl _ _ Hk).
Qed.

Lemma dict_literal_closed secs h :
  NoDup secs.*1 → heap_closed h →
  heap_closed (dict_literal secs h).1
  ∧ is_Some (h_maps (dict_literal secs h).1 !! (dict_literal secs h).2).
Proof.
  intros Hnd Hcl.
  destruct (dict_literal secs h) as [h1 n] eqn:Hlit.
  apply dict_literal_spec in Hlit
    as (D & Hfresh & Hmaps & Hfr & _ & Hsome & _); [| done].
  simpl. split.
  - intros l nd Hl k s Hk. simpl. rewrite Hmaps, lookup_insert in Hl.
    case_decide.
    + injection Hl as <-. destruct (Hsome _ _ Hk) as (_ & d & _ & Hd).
      by eexists.
    + pose proof (Hcl _ _ Hl _ _ Hk) as Hs. simpl in Hs. by rewrite Hfr.
  - rewrite Hmaps, lookup_insert_eq. by eexists.
Qed.

(** ** The merge loop *)

Lemma elem_of_dict_keys {V : Type} (d : gmap string V) k :
  k ∈ dict_keys d ↔ is_Some (d !! k).
Proof.
  unfold dict_keys. rewrite list_elem_of_fmap. split.
  - intros ([k' v] & -> & Hin). apply elem_of_map_to_list in Hin. by exists v.
  - intros [v Hv]. exists (k, v). split; [done |].
    by apply elem_of_map_to_list.
Qed.

Lemma dict_keys_NoDup {V : Type} (d : gmap string V) : NoDup (dict_keys d).
Proof. apply NoDup_fst_map_to_list. Qed.

(** Membership in [k0 :: ks], split into its cases. *)
Ltac cons_mem :=
  repeat match goal with
         | H : _ ∈ _ :: _ |- _ => apply elem_of_cons in H as [? | ?]
         | H : ¬ (_ ∈ _ :: _) |- _ => apply not_elem_of_cons in H as [? ?]
         end;
  try done; try congruence.

(** The two branches of one turn of the loop. *)
Lemma merge_key_inv n m k h h1 :
  merge_key n m k h = Some h1 →
  ∃ nd md s,
    h_maps h !! n = Some nd ∧ h_maps h !! m = Some md ∧ md !! k = Some s
    ∧ ((∃ t td sd,
          nd !! k = Some t ∧ h_secs h !! t = Some td ∧ h_secs h !! s = Some sd
          ∧ h_maps h1 = h_maps h
          ∧ h_secs h1 = <[t := dict_update td sd]> (h_secs h))
       ∨ (nd !! k = None
          ∧ h_maps h1 = <[n := <[k := s]> nd]> (h_maps h)
          ∧ h_secs h1 = h_secs h)).
Proof.
  unfold merge_key. intros H.
  destruct (h_maps h !! n) as [nd|] eqn:En; [| done].
  destruct (h_maps h !! m) as [md|] eqn:Em; [| done].
  simpl in H. exists nd, md.
  destruct (nd !! k) as [t|] eqn:Ek.
  - destruct (md !! k) as [s|] eqn:Es; [| done]. simpl in H.
    destruct (h_secs h !! t) as [td|] eqn:Et; [| done]. simpl in H.
    destruct (h_secs h !! s) as [sd|] eqn:Esd; [| done]. simpl in H.
    injection H as <-. exists s. split_and!; try done.
    left. by exists t, td, sd.
  - destruct (md !! k) as [s|] eqn:Es; [| done]. simpl in H.
    injection H as <-. exists s. split_and!; try done.
    by right.
Qed.

Lemma merge_keys_inv n m : ∀ ks h h' nd md,
  n ≠ m → NoDup ks →
  merge_keys n m ks h = Some h' →
  h_maps h !! n = Some nd → h_maps h !! m = Some md →
  (∀ l, l ≠ n → h_maps h' !! l = h_maps h !! l)
  ∧ (∃ nd', h_maps h' !! n = Some nd'
       ∧ ∀ k, nd' !! k = match nd !! k with
                         | Some t => Some t
                         | None => if decide (k ∈ ks) then md !! k else None
                         end)
  ∧ (∀ l, (∀ k, k ∈ ks → nd !! k ≠ Some l) → h_secs h' !! l = h_secs h !! l)
  ∧ (∀ l, is_Some (h_secs h' !! l) ↔ is_Some (h_secs h !! l)).
Proof.
  induction ks as [|k0 ks IH]; intros h h' nd md Hnm Hnd; cbn [merge_keys].
  - intros [= <-] Hn Hm. split_and!; try done.
    exists nd. split; [done |]. intros k.
    destruct (nd !! k); [done |]. case_decide as Hk; [| done].
    by apply elem_of_nil in Hk.
  - apply NoDup_cons in Hnd as [Hk0 Hnd].
    destruct (merge_key n m k0 h) as [h1|] eqn:Hstep; [| done]. simpl.
    intros Hrest Hn Hm.
    apply merge_key_inv in Hstep
      as (nd0 & md0 & s & Hn0 & Hm0 & Hs & Hcase).
    rewrite Hn in Hn0. rewrite Hm in Hm0. simplify_eq.
    destruct Hcase as [(t & td & sd & Ht & Htd & Hsd & Hmaps & Hsecs)
                      | (Hnone & Hmaps & Hsecs)].
    + (* namelist[key].update(namelist_mod[key]) *)
      destruct (IH h1 h' nd0 md0 Hnm Hnd Hrest) as (F1 & (nd' & Hn' & F2) & F3 & F4);
        [by rewrite Hmaps | by rewrite Hmaps |].
      split_and!.
      * intros l Hl. rewrite F1 by done. by rewrite Hmaps.
      * exists nd'. split; [done |]. intros k. rewrite F2.
        destruct (nd0 !! k) eqn:Ek; [done |].
        assert (k ≠ k0) by congruence.
        repeat case_decide; try done.
        -- exfalso. cons_mem.
        -- exfalso. cons_mem.
      * intros l Hl. rewrite F3.
        -- rewrite Hsecs. apply lookup_insert_ne. intros ->.
           by apply (Hl k0); [left |].
        -- intros k Hk. apply Hl. by right.
      * intros l. rewrite F4, Hsecs. rewrite lookup_insert.
        case_decide; [subst; split; eauto | done].
    + (* namelist[key] = namelist_mod[key] *)
      assert (Hn1 : h_maps h1 !! n = Some (<[k0 := s]> nd0))
        by (by rewrite Hmaps, lookup_insert_eq).
      assert (Hm1 : h_maps h1 !! m = Some md0)
        by (by rewrite Hmaps, lookup_insert_ne).
      destruct (IH h1 h' _ md0 Hnm Hnd Hrest Hn1 Hm1)
        as (F1 & (nd' & Hn' & F2) & F3 & F4).
      split_and!.
      * intros l Hl. rewrite F1 by done. rewrite Hmaps.
        by apply lookup_insert_ne.
      * exists nd'. split; [done |]. intros k. rewrite F2.
        destruct (decide (k = k0)) as [-> | Hne].
        -- rewrite lookup_insert_eq, Hnone.
           rewrite decide_True by left. done.
        -- rewrite lookup_insert_ne by done.
           destruct (nd0 !! k); [done |].
           repeat case_decide; try done.
           ++ exfalso. cons_mem.
           ++ exfalso. cons_mem.
      * intros l Hl. rewrite F3; [by rewrite Hsecs |].
        intros k Hk. rewrite lookup_insert_ne by (intros ->; done).
        apply Hl. by right.
      * intros l. by rewrite F4, Hsecs.
Qed.

(** A section present on both sides ends as the default updated by the
    override, whatever the order the keys are visited in. *)
Lemma merge_keys_update n m : ∀ ks h h' nd md k t s td sd,
  n ≠ m → NoDup ks →
  merge_keys n m ks h = Some h' →
  h_maps h !! n = Some nd → h_maps h !! m = Some md →
  k ∈ ks → nd !! k = Some t → md !! k = Some s →
  h_secs h !! t = Some td → h_secs h !! s = Some sd →
  (∀ k', k' ∈ ks → k' ≠ k → nd !! k' ≠ Some t) →
  (∀ k', k' ∈ ks → k' ≠ k → nd !! k' ≠ Some s) →
  h_secs h' !! t = Some (dict_update td sd).
Proof.
  induction ks as [|k0 ks IH];
    intros h h' nd md k t s td sd Hnm Hnd; cbn [merge_keys].
  - intros _ _ _ Hin. by apply elem_of_nil in Hin.
  - apply NoDup_cons in Hnd as [Hk0 Hnd].
    destruct (merge_key n m k0 h) as [h1|] eqn:Hstep; [| done]. simpl.
    intros Hrest Hn Hm Hin Ht Hs Htd Hsd Hinj Hsep.
    apply merge_key_inv in Hstep
      as (nd0 & md0 & s0 & Hn0 & Hm0 & Hs0 & Hcase).
    rewrite Hn in Hn0. rewrite Hm in Hm0. simplify_eq.
    destruct (decide (k0 = k)) as [-> | Hne].
    + destruct Hcase as [(t1 & td1 & sd1 & Ht1 & Htd1 & Hsd1 & Hmaps & Hsecs)
                        | (Hnone & _)]; [| congruence].
      simplify_eq.
      destruct (merge_keys_inv n m ks h1 h' nd0 md0 Hnm Hnd Hrest)
        as (_ & _ & F3 & _); [by rewrite Hmaps | by rewrite Hmaps |].
      rewrite F3.
      * rewrite Hsecs. apply lookup_insert_eq.
      * intros k' Hk'. apply Hinj; [by right | by intros ->].
    + apply elem_of_cons in Hin as [-> | Hin]; [done |].
      destruct Hcase as [(t1 & td1 & sd1 & Ht1 & Htd1 & Hsd1 & Hmaps & Hsecs)
                        | (Hnone & Hmaps & Hsecs)].
      * assert (t1 ≠ t) by (intros ->; by apply (Hinj k0); [left | |]).
        assert (t1 ≠ s) by (intros ->; by apply (Hsep k0); [left | |]).
        apply (IH h1 h' nd0 md0 k t s td sd); try done.
        -- by rewrite Hmaps.
        -- by rewrite Hmaps.
        -- by rewrite Hsecs, lookup_insert_ne.
        -- by rewrite Hsecs, lookup_insert_ne.
        -- intros k' Hk'. apply Hinj. by right.
        -- intros k' Hk'. apply Hsep. by right.
      * apply (IH h1 h' (<[k0 := s0]> nd0) md0 k t s td sd); try done.
        -- by rewrite Hmaps, lookup_insert_eq.
        -- by rewrite Hmaps, lookup_insert_ne.
        -- by rewrite lookup_insert_ne.
        -- by rewrite Hsecs.
        -- by rewrite Hsecs.
        -- intros k' Hk' Hkk'. rewrite lookup_insert_ne by (intros ->; done).
           apply Hinj; [by right | done].
        -- intros k' Hk' Hkk'. rewrite lookup_insert_ne by (intros ->; done).
           apply Hsep; [by right | done].
Qed.

(** The loop runs to its end when every reference names an object. *)
Lemma merge_keys_total n m : ∀ ks h nd md,
  n ≠ m →
  h_maps h !! n = Some nd → h_maps h !! m = Some md →
  (∀ k, k ∈ ks → ∃ s, md !! k = Some s ∧ is_Some (h_secs h !! s)) →
  (∀ k t, nd !! k = Some t → is_Some (h_secs h !! t)) →
  is_Some (merge_keys n m ks h).
Proof.
  induction ks as [|k0 ks IH]; intros h nd md Hnm Hn Hm Hmd Hndl;
    cbn [merge_keys]; [by eexists |].
  destruct (Hmd k0) as (s & Hs & [sd Hsd]); [left |].
  unfold merge_key. rewrite Hn, Hm. simpl.
  destruct (nd !! k0) as [t|] eqn:Ek.
  - destruct (Hndl _ _ Ek) as [td Htd].
    rewrite Hs. simpl. rewrite Htd. simpl. rewrite Hsd. simpl.
    apply (IH _ nd md); simpl; try done.
    + intros k Hk. destruct (Hmd k) as (s' & Hs' & Hal); [by right |].
      exists s'. split; [done |]. rewrite lookup_insert.
      by case_decide.
    + intros k t' Hk. rewrite lookup_insert.
      case_decide; [done | by eapply Hndl].
  - rewrite Hs. simpl.
    apply (IH _ (<[k0 := s]> nd) md); simpl; try done.
    + by rewrite lookup_insert_eq.
    + by rewrite lookup_insert_ne.
    + intros k Hk. apply Hmd. by right.
    + intros k t. rewrite lookup_insert. case_decide.
      * intros [= <-]. by eexists.
      * apply Hndl.
Qed.

(** ** Lines 58-63 on the store *)

(** What [default_namelist] followed by the merge leaves in the store:
    a new namelist [n], every older object as it was, and each section of
    [n] described by where its name occurs. *)
Lemma build_namelist_spec m h h' n md :
  build_namelist m h = Some (h', n) →
  h_maps h !! m = Some md →
  h_maps h !! n = None
  ∧ (∀ l, l ≠ n → h_maps h' !! l = h_maps h !! l)
  ∧ (∀ l, is_Some (h_secs h !! l) → h_secs h' !! l = h_secs h !! l)
  ∧ ∃ nd', h_maps h' !! n = Some nd'
      ∧ (∀ k, default_section k = None → nd' !! k = md !! k)
      ∧ (∀ k dd, default_section k = Some dd →
           ∃ t, nd' !! k = Some t ∧ h_secs h !! t = None
                ∧ (md !! k = None → h_secs h' !! t = Some dd)
                ∧ (∀ s sd, md !! k = Some s → h_secs h !! s = Some sd →
                     h_secs h' !! t = Some (dict_update dd sd))).
Proof.
  unfold build_namelist, default_namelist, default_section.
  destruct (dict_literal default_sections h) as [h1 n1] eqn:Hlit.
  intros Hb Hm.
  destruct (merge_namelist n1 m h1) as [h2|] eqn:Hmerge; [| done].
  simpl in Hb. injection Hb as -> ->.
  apply dict_literal_spec in Hlit
    as (D & Hfresh & Hmaps & Hfr & Hnone & Hsome & Hinj);
    [| apply default_sections_NoDup].
  assert (Hnm : n ≠ m) by congruence.
  assert (Hn1 : h_maps h1 !! n = Some D) by (by rewrite Hmaps, lookup_insert_eq).
  assert (Hm1 : h_maps h1 !! m = Some md) by (by rewrite Hmaps, lookup_insert_ne).
  unfold merge_namelist in Hmerge. rewrite Hm1 in Hmerge. simpl in Hmerge.
  pose proof (dict_keys_NoDup md) as Hnd.
  destruct (merge_keys_inv n m (dict_keys md) h1 h' D md Hnm Hnd Hmerge Hn1 Hm1)
    as (F1 & (nd' & Hn' & F2) & F3 & F4).
  split; [done |].
  split.
  { intros l Hl. rewrite F1 by done. rewrite Hmaps. by apply lookup_insert_ne. }
  split.
  { intros l Hl. rewrite F3; [by apply Hfr |].
    intros k _ Hk. destruct (Hsome _ _ Hk) as (Hnot & _).
    rewrite Hnot in Hl. by destruct Hl. }
  exists nd'. split; [done |]. split.
  - intros k Hk. apply Hnone in Hk. rewrite F2, Hk.
    case_decide as Hin; [done |].
    rewrite elem_of_dict_keys in Hin.
    destruct (md !! k); [| done]. exfalso. apply Hin. by eexists.
  - intros k dd Hk.
    destruct (D !! k) as [t|] eqn:Et;
      [| apply Hnone in Et; congruence].
    destruct (Hsome _ _ Et) as (Hnot & d & Hd & Hlk).
    rewrite Hk in Hd. injection Hd as <-.
    exists t. split; [by rewrite F2, Et |]. split; [done |]. split.
    + intros Hmk. rewrite F3; [done |].
      intros k' Hk' Hk't. assert (k' = k) as -> by (by eapply Hinj).
      apply elem_of_dict_keys in Hk' as [? ?]. congruence.
    + intros s sd Hs Hsd.
      apply (merge_keys_update n m (dict_keys md) h1 h' D md k t s dd sd); try done.
      * apply elem_of_dict_keys. by eexists.
      * rewrite Hfr; [done | by eexists].
      * intros k' _ Hne Hk't. apply Hne. by eapply Hinj.
      * intros k' _ _ Hk's. destruct (Hsome _ _ Hk's) as (Hnot' & _).
        congruence.
Qed.

(** Lines 58-63 run to their end on a store without dangling references. *)
Lemma build_namelist_total m h md :
  h_maps h !! m = Some md →
  (∀ k s, md !! k = Some s → is_Some (h_secs h !! s)) →
  is_Some (build_namelist m h).
Proof.
  intros Hm Hal. unfold build_namelist, default_namelist.
  destruct (dict_literal default_sections h) as [h1 n] eqn:Hlit.
  apply dict_literal_spec in Hlit
    as (D & Hfresh & Hmaps & Hfr & Hnone & Hsome & Hinj);
    [| apply default_sections_NoDup].
  assert (Hnm : n ≠ m) by congruence.
  assert (Hn1 : h_maps h1 !! n = Some D) by (by rewrite Hmaps, lookup_insert_eq).
  assert (Hm1 : h_maps h1 !! m = Some md) by (by rewrite Hmaps, lookup_insert_ne).
  unfold merge_namelist. rewrite Hm1. simpl.
  destruct (merge_keys_total n m (dict_keys md) h1 D md Hnm Hn1 Hm1) as [h2 Hh2].
  - intros k [s Hs]%elem_of_dict_keys. exists s. split; [done |].
    rewrite Hfr; by eapply Hal.
  - intros k t Hk. destruct (Hsome _ _ Hk) as (_ & d & _ & Hlk). by eexists.
  - rewrite Hh2. by eexists.
Qed.

(** The contents of the sections of the new namelist, read through
    [section_of]. *)
Lemma build_namelist_sections m h h' n md :
  build_namelist m h = Some (h', n) →
  h_maps h !! m = Some md →
  (∀ k dd s sd, default_section k = Some dd → md !! k = Some s →
     h_secs h !! s = Some sd →
     section_of h' n k = Some (dict_update dd sd))
  ∧ (∀ k dd, default_section k = Some dd → md !! k = None →
       section_of h' n k = Some dd)
  ∧ (∀ k s sd, default_section k = None → md !! k = Some s →
       h_secs h !! s = Some sd →
       section_of h' n k = Some sd)
  ∧ (∀ k, default_section k = None → md !! k = None →
       section_of h' n k = None).
Proof.
  intros Hb Hm.
  destruct (build_namelist_spec _ _ _ _ _ Hb Hm)
    as (_ & _ & Hfr & nd' & Hn' & Hnew & Hdef).
  unfold section_of. rewrite Hn'. simpl. split_and!.
  - intros k dd s sd Hk Hs Hsd.
    destruct (Hdef _ _ Hk) as (t & Ht & _ & _ & Hupd).
    rewrite Ht. simpl. by eapply Hupd.
  - intros k dd Hk Hs.
    destruct (Hdef _ _ Hk) as (t & Ht & _ & Hkeep & _).
    rewrite Ht. simpl. by apply Hkeep.
  - intros k s sd Hk Hs Hsd. rewrite (Hnew _ Hk), Hs. simpl.
    rewrite Hfr; [done | by eexists].
  - intros k Hk Hs. by rewrite (Hnew _ Hk), Hs.
Qed.

(** Lines 58-63 leave no dangling reference behind. *)
Lemma build_namelist_closed m h h' n md :
  build_namelist m h = Some (h', n) →
  h_maps h !! m = Some md →
  heap_closed h → heap_closed h'.
Proof.
  intros Hb Hm Hcl.
  destruct (build_namelist_spec _ _ _ _ _ Hb Hm)
    as (Hn & Fm & Fs & nd' & Hn' & Hnew & Hdef).
  intros l nd0 Hl k s Hk. simpl.
  destruct (decide (l = n)) as [-> | Hne].
  - rewrite Hn' in Hl. injection Hl as <-.
    destruct (default_section k) as [dd|] eqn:Hd.
    + destruct (Hdef _ _ Hd) as (t & Ht & _ & Hkeep & Hupd).
      rewrite Hk in Ht. injection Ht as <-.
      destruct (md !! k) as [s0|] eqn:Hmk.
      * destruct (Hcl _ _ Hm _ _ Hmk) as [sd Hsd].
        rewrite (Hupd _ _ eq_refl Hsd). by eexists.
      * rewrite Hkeep by done. by eexists.
    + rewrite (Hnew _ Hd) in Hk.
      pose proof (Hcl _ _ Hm _ _ Hk) as Hs. simpl in Hs.
      by rewrite Fs.
  - rewrite Fm in Hl by done.
    pose proof (Hcl _ _ Hl _ _ Hk) as Hs. simpl in Hs.
    by rewrite Fs.
Qed.

(** ** The runs of the constructor *)

Section Runs.

Variable ext : call → list event → option exn.

#[local] Ltac leaf rule :=
  eexists; split;
  [ cbn [fst snd w_log]; rewrite <- ?app_assoc; reflexivity
  | cbn [fst snd w_heap]; by apply rule ].

(** One step of a computation, by what its first action does. *)
Lemma external_returns {A} c (k : unit → M A) w :
  ext c (w_log w) = None →
  (external ext c ≫= k) w = k () (World (w_heap w) (w_log w ++ [ECall c])).
Proof. intros H. unfold mbind, M_bind, external. by rewrite H. Qed.

Lemma external_raises {A} c (k : unit → M A) w e :
  ext c (w_log w) = Some e →
  (external ext c ≫= k) w
  = (World (w_heap w) (w_log w ++ [ECall c]), Raise e).
Proof. intros H. unfold mbind, M_bind, external. by rewrite H. Qed.

Lemma emit_step {A} e (k : unit → M A) w :
  (emit e ≫= k) w = k () (World (w_heap w) (w_log w ++ [e])).
Proof. done. Qed.

Lemma on_heap_step {A B} (f : heap → option (heap * A)) (k : A → M B) w h a :
  f (w_heap w) = Some (h, a) →
  (on_heap f ≫= k) w = k a (World h (w_log w)).
Proof. intros H. unfold mbind, M_bind, on_heap. by rewrite H. Qed.

Lemma on_heap_stuck {A B} (f : heap → option (heap * A)) (k : A → M B) w :
  f (w_heap w) = None → (on_heap f ≫= k) w = (w, Stuck).
Proof. intros H. unfold mbind, M_bind, on_heap. by rewrite H. Qed.

Lemma alloc_step {A B} (f : heap → heap * A) (k : A → M B) w :
  (alloc f ≫= k) w = k (f (w_heap w)).2 (World (f (w_heap w)).1 (w_log w)).
Proof. unfold mbind, M_bind, alloc. by destruct (f (w_heap w)). Qed.

(** Every run of [__init__] is one of the seven of [init_outcome]. *)
Lemma init_outcome_intro env args w :
  ∃ new, w_log (__init__ ext env args w).1 = w_log w ++ new
         ∧ init_outcome ext env args w
             (w_heap (__init__ ext env args w).1) new
             (__init__ ext env args w).2.
Proof.
  unfold __init__.
  destruct (ext (CCompile (codebase_of env args)) (w_log w)) as [e|] eqn:E1.
  { rewrite (external_raises _ _ _ _ E1). leaf init_compile_raises. }
  rewrite (external_returns _ _ _ E1).
  destruct (ext (CExperimentInit (a_name args) (codebase_of env args))
              (w_log w ++ [ECall (CCompile (codebase_of env args))]))
    as [e|] eqn:E2.
  { rewrite (external_raises _ _ _ e) by done. leaf init_super_raises. }
  rewrite external_returns by done. rewrite emit_step. cbn [w_heap w_log].
  destruct (build_namelist (namelist_mod_of env args) (w_heap w))
    as [[h n]|] eqn:E3.
  2: { rewrite on_heap_stuck by done. leaf init_stuck. }
  rewrite (on_heap_step _ _ _ h n) by done. cbn [w_heap w_log].
  rewrite <- !app_assoc. cbn [app].
  destruct (ext (CNamelist (a_name args) n)
              (w_log w ++ [ev_compile env args; ev_super env args;
                           ev_diag args])) as [e|] eqn:E4.
  { rewrite (external_raises _ _ _ e) by done. leaf init_wrap_raises. }
  rewrite external_returns by done. rewrite emit_step. cbn [w_heap w_log].
  rewrite <- !app_assoc. cbn [app].
  destruct (a_kwargs args !! "resolution") as [r|] eqn:E5.
  2: { leaf init_returns. }
  destruct (ext (CSetResolution (a_name args) r)
              (w_log w ++ [ev_compile env args; ev_super env args;
                           ev_diag args; ev_wrap args n;
                           ev_namelist args n])) as [e|] eqn:E6.
  - rewrite (external_raises _ _ _ e) by done.
    leaf init_resolution_raises.
  - rewrite external_returns by done.
    leaf init_returns_resolved.
Qed.

(** A construction that returns has run lines 58-63 to their end, and
    its handle holds the namelist they built. *)
Lemma init_returns_inv env args w exp :
  (__init__ ext env args w).2 = Ok exp →
  ∃ n, build_namelist (namelist_mod_of env args) (w_heap w)
       = Some (w_heap (__init__ ext env args w).1, n)
       ∧ exp = handle env args n.
Proof.
  intros Hok.
  destruct (init_outcome_intro env args w) as (new & _ & Hout).
  rewrite Hok in Hout.
  remember (w_heap (__init__ ext env args w).1) as h eqn:Hh. clear Hh.
  inversion Hout; subst; exists n; split; try done; congruence.
Qed.

(** Whatever the run, the store is as it was or as lines 58-63 leave it. *)
Lemma init_heap env args w :
  w_heap (__init__ ext env args w).1 = w_heap w
  ∨ ∃ n, build_namelist (namelist_mod_of env args) (w_heap w)
         = Some (w_heap (__init__ ext env args w).1, n).
Proof.
  destruct (init_outcome_intro env args w) as (new & _ & Hout).
  remember (w_heap (__init__ ext env args w).1) as h eqn:Hh. clear Hh.
  remember ((__init__ ext env args w).2) as r eqn:Hr. clear Hr.
  destruct Hout; [by left | by left | by left | right .. ]; by exists n.
Qed.

(** No construction writes to an object that was there before it. *)
Lemma init_frame env args w md :
  h_maps (w_heap w) !! namelist_mod_of env args = Some md →
  (∀ l, is_Some (h_maps (w_heap w) !! l) →
     h_maps (w_heap (__init__ ext env args w).1) !! l
     = h_maps (w_heap w) !! l)
  ∧ (∀ l, is_Some (h_secs (w_heap w) !! l) →
       h_secs (w_heap (__init__ ext env args w).1) !! l
       = h_secs (w_heap w) !! l).
Proof.
  intros Hm.
  destruct (init_heap env args w) as [-> | (n & Hb)]; [done |].
  destruct (build_namelist_spec _ _ _ _ _ Hb Hm) as (Hn & Fm & Fs & _).
  split; [| done].
  intros l Hl. apply Fm. intros ->. rewrite Hn in Hl. by destruct Hl.
Qed.

Lemma init_closed env args w md :
  h_maps (w_heap w) !! namelist_mod_of env args = Some md →
  heap_closed (w_heap w) →
  heap_closed (w_heap (__init__ ext env args w).1).
Proof.
  intros Hm Hcl.
  destruct (init_heap env args w) as [-> | (n & Hb)]; [done |].
  by eapply build_namelist_closed.
Qed.

(** The sections a live namelist shows are the same before and after a
    construction. *)
Lemma init_preserves_sections env args w md n :
  h_maps (w_heap w) !! namelist_mod_of env args = Some md →
  heap_closed (w_heap w) →
  is_Some (h_maps (w_heap w) !! n) →
  ∀ k, section_of (w_heap (__init__ ext env args w).1) n k
       = section_of (w_heap w) n k.
Proof.
  intros Hm Hcl [nd Hn] k.
  destruct (init_frame env args w md Hm) as (Fm & Fs).
  unfold section_of. rewrite Fm, Hn by (by eexists). simpl.
  destruct (nd !! k) as [s|] eqn:Hk; [| done]. simpl.
  apply Fs. apply (Hcl _ _ Hn _ _ Hk).
Qed.

(** On a store without dangling references a construction is never
    stuck: it returns a handle or raises what a framework call raised. *)
Lemma init_not_stuck env args w md :
  h_maps (w_heap w) !! namelist_mod_of env args = Some md →
  heap_closed (w_heap w) →
  (__init__ ext env args w).2 ≠ Stuck.
Proof.
  intros Hm Hcl Hstuck.
  destruct (init_outcome_intro env args w) as (new & _ & Hout).
  rewrite Hstuck in Hout.
  remember (w_heap (__init__ ext env args w).1) as h eqn:Hh. clear Hh.
  inversion Hout as [| | ? ? Hnone | | | |]; subst.
  destruct (build_namelist_total _ _ _ Hm (λ k s, Hcl _ _ Hm k s)) as [x Hx].
  congruence.
Qed.

(** When, besides, no framework call raises, it returns a handle. *)
Lemma init_returns_handle env args w md :
  h_maps (w_heap w) !! namelist_mod_of env args = Some md →
  heap_closed (w_heap w) →
  (∀ c l, ext c l = None) →
  ∃ exp, (__init__ ext env args w).2 = Ok exp.
Proof.
  intros Hm Hcl Hquiet.
  pose proof (init_not_stuck env args w md Hm Hcl) as Hns.
  destruct (init_outcome_intro env args w) as (new & _ & Hout).
  destruct ((__init__ ext env args w).2) as [exp | e |] eqn:Hres;
    [by exists exp | | done].
  remember (w_heap (__init__ ext env args w).1) as h eqn:Hh. clear Hh.
  inversion Hout; subst;
    match goal with H : ext _ _ = Some _ |- _ => by rewrite Hquiet in H end.
Qed.

End Runs.

(** ** The merge, as seen from the handle *)

(** A closed equation, settled by evaluating its left side. *)
Ltac evaluate :=
  match goal with
  | |- _ = ?rhs => vm_cast_no_check (eq_refl rhs)
  end.

(** The example of the spec, on the loop itself: the defaults are any
    namelist with a section ['a': {'x': 0, 'y': 2}], the override is
    [{'a': {'x': 1}}]. *)
Lemma merge_example h n m nd t u :
  h_maps h !! n = Some nd →
  nd !! "a" = Some t →
  h_secs h !! t = Some {[ "x" := VInt 0; "y" := VInt 2 ]} →
  h_maps h !! m = Some {[ "a" := u ]} →
  h_secs h !! u = Some {[ "x" := VInt 1 ]} →
  ∃ h', merge_namelist n m h = Some h'
        ∧ section_of h' n "a" = Some {[ "x" := VInt 1; "y" := VInt 2 ]}.
Proof.
  intros Hn Ha Ht Hm Hu.
  assert (t ≠ u).
  { intros ->. rewrite Ht in Hu.
    apply (f_equal (λ o : option section_dict, d ← o; d !! "y")) in Hu.
    by vm_compute in Hu. }
  unfold merge_namelist. rewrite Hm. simpl.
  unfold dict_keys. rewrite map_to_list_singleton. simpl.
  unfold merge_key. rewrite Hn, Hm. simpl. rewrite Ha. simpl.
  rewrite lookup_singleton_eq. simpl. rewrite Ht. simpl. rewrite Hu. simpl.
  eexists. split; [done |].
  unfold section_of. simpl. rewrite Hn. simpl. rewrite Ha. simpl.
  rewrite lookup_insert_eq. f_equal.
Qed.

(** C1: a section named by both the override mapping and the default
    namelist is, in the constructed namelist, the default section updated
    by the override section: keys of the override take the override's
    value, the other keys keep their default.  Merging [{'a': {'x': 1}}]
    into defaults with ['a': {'x': 0, 'y': 2}] gives
    ['a': {'x': 1, 'y': 2}]. *)
Theorem merge_updates_default_section ext env args w md k s sd dd :
  h_maps (w_heap w) !! namelist_mod_of env args = Some md →
  md !! k = Some s →
  h_secs (w_heap w) !! s = Some sd →
  default_section k = Some dd →
  (∀ exp, (__init__ ext env args w).2 = Ok exp →
     config (w_heap (__init__ ext env args w).1) exp k
     = Some (dict_update dd sd))
  ∧ (heap_closed (w_heap w) → (∀ c l, ext c l = None) →
       ∃ exp, (__init__ ext env args w).2 = Ok exp)
  ∧ (∀ p v, sd !! p = Some v → dict_update dd sd !! p = Some v)
  ∧ (∀ p, sd !! p = None → dict_update dd sd !! p = dd !! p)
  ∧ (∀ h n m nd t u,
       h_maps h !! n = Some nd →
       nd !! "a" = Some t →
       h_secs h !! t = Some {[ "x" := VInt 0; "y" := VInt 2 ]} →
       h_maps h !! m = Some {[ "a" := u ]} →
       h_secs h !! u = Some {[ "x" := VInt 1 ]} →
       ∃ h', merge_namelist n m h = Some h'
             ∧ section_of h' n "a" = Some {[ "x" := VInt 1; "y" := VInt 2 ]}).
Proof.
  intros Hm Hk Hs Hd. split_and!.
  - intros exp Hok.
    apply init_returns_inv in Hok as (n & Hb & ->).
    destruct (build_namelist_sections _ _ _ _ _ Hb Hm) as (Hboth & _).
    unfold config, handle. simpl. by eapply Hboth.
  - intros Hcl Hquiet. by eapply init_returns_handle.
  - intros p v Hp. unfold dict_update. by apply lookup_union_Some_l.
  - intros p Hp. unfold dict_update. by apply lookup_union_r.
  - apply merge_example.
Qed.

Lemma merge_updates_default_section_witness :
  config (w_heap (__init__ quiet sample_env sample_args sample_world).1)
         (handle sample_env sample_args 3%positive) "main_nml"
  = Some (dict_update main_nml sample_main).
Proof.
  refine (proj1 (merge_updates_default_section quiet sample_env sample_args
                   sample_world sample_mod_dict "main_nml" 1%positive
                   sample_main main_nml _ _ _ _)
            (handle sample_env sample_args 3%positive) _); evaluate.
Defined.

(** C4: a section the override mapping brings under a name the default
    namelist does not have is, in the constructed namelist, that section
    with the key/value pairs the override gives it. *)
Theorem new_section_inserted_unchanged ext env args w md k s sd :
  h_maps (w_heap w) !! namelist_mod_of env args = Some md →
  md !! k = Some s →
  h_secs (w_heap w) !! s = Some sd →
  default_section k = None →
  (∀ exp, (__init__ ext env args w).2 = Ok exp →
     config (w_heap (__init__ ext env args w).1) exp k = Some sd)
  ∧ (heap_closed (w_heap w) → (∀ c l, ext c l = None) →
       ∃ exp, (__init__ ext env args w).2 = Ok exp).
Proof.
  intros Hm Hk Hs Hd. split.
  - intros exp Hok.
    apply init_returns_inv in Hok as (n & Hb & ->).
    destruct (build_namelist_sections _ _ _ _ _ Hb Hm) as (_ & _ & Hnew & _).
    unfold config, handle. simpl. by eapply Hnew.
  - intros Hcl Hquiet. by eapply init_returns_handle.
Qed.

Lemma new_section_inserted_unchanged_witness :
  config (w_heap (__init__ quiet sample_env sample_args sample_world).1)
         (handle sample_env sample_args 3%positive) "extra_nml"
  = Some sample_extra.
Proof.
  refine (proj1 (new_section_inserted_unchanged quiet sample_env sample_args
                   sample_world sample_mod_dict "extra_nml" 2%positive
                   sample_extra _ _ _ _)
            (handle sample_env sample_args 3%positive) _); evaluate.
Defined.

(** C9: a section of the default namelist that the override mapping does
    not name is, in the constructed namelist, exactly the default
    section. *)
Theorem untouched_section_keeps_defaults ext env args w md k dd :
  h_maps (w_heap w) !! namelist_mod_of env args = Some md →
  md !! k = None →
  default_section k = Some dd →
  (∀ exp, (__init__ ext env args w).2 = Ok exp →
     config (w_heap (__init__ ext env args w).1) exp k = Some dd)
  ∧ (heap_closed (w_heap w) → (∀ c l, ext c l = None) →
       ∃ exp, (__init__ ext env args w).2 = Ok exp).
Proof.
  intros Hm Hk Hd. split.
  - intros exp Hok.
    apply init_returns_inv in Hok as (n & Hb & ->).
    destruct (build_namelist_sections _ _ _ _ _ Hb Hm) as (_ & Hkeep & _).
    unfold config, handle. simpl. by eapply Hkeep.
  - intros Hcl Hquiet. by eapply init_returns_handle.
Qed.

Lemma untouched_section_keeps_defaults_witness :
  config (w_heap (__init__ quiet sample_env sample_args sample_world).1)
         (handle sample_env sample_args 3%positive) "fms_nml"
  = Some fms_nml.
Proof.
  refine (proj1 (untouched_section_keeps_defaults quiet sample_env sample_args
                   sample_world sample_mod_dict "fms_nml" fms_nml _ _ _)
            (handle sample_env sample_args 3%positive) _); evaluate.
Defined.

(** ** The diagnostic table *)

(** C2: for every output frequency, the table built with averaging flag
    [False] registers the same fields (module and name, in the same order)
    and the same file as the one built with [True]; the two differ only in
    the averaging flag of the fields that are given one.  Every table has
    exactly nine field registrations and one file registration, and is
    determined by the output frequency and the flag alone. *)
Theorem diag_table_same_fields_any_averaging (output_freq : Z) :
  field_id <$> fields (build_diag_table output_freq false)
  = field_id <$> fields (build_diag_table output_freq true)
  ∧ files (build_diag_table output_freq false)
    = files (build_diag_table output_freq true)
  ∧ ∀ output_avg : bool,
      length (fields (build_diag_table output_freq output_avg)) = 9%nat
      ∧ length (files (build_diag_table output_freq output_avg)) = 1%nat
      ∧ Forall (λ f, field_time_avg f = Some output_avg
                     ∨ field_time_avg f = None)
               (fields (build_diag_table output_freq output_avg))
      ∧ build_diag_table output_freq output_avg
        = MkDiagTable
            [ DiagFile "atmos_monthly" output_freq "days" (Some "days") ]
            [ DiagField "dynamics" "ps" (Some output_avg);
              DiagField "dynamics" "bk" None;
              DiagField "dynamics" "pk" None;
              DiagField "dynamics" "ucomp" (Some output_avg);
              DiagField "dynamics" "vcomp" (Some output_avg);
              DiagField "dynamics" "temp" (Some output_avg);
              DiagField "dynamics" "vor" (Some output_avg);
              DiagField "dynamics" "div" (Some output_avg);
              DiagField "hs_forcing" "q_eqf" (Some output_avg) ].
Proof.
  split; [reflexivity |]. split; [reflexivity |].
  intros output_avg. split; [reflexivity |]. split; [reflexivity |].
  split; [| reflexivity].
  unfold build_diag_table, add_field, add_file, DiagTable_new. simpl.
  repeat (apply Forall_cons; split; [simpl; auto |]). apply Forall_nil_2.
Qed.

(** The namelist of a returned handle, name by name. *)
Lemma init_config_cases ext env args w md exp k :
  h_maps (w_heap w) !! namelist_mod_of env args = Some md →
  (__init__ ext env args w).2 = Ok exp →
  (∀ s, md !! k = Some s → is_Some (h_secs (w_heap w) !! s)) →
  config (w_heap (__init__ ext env args w).1) exp k
  = two_level_merge (section_of (w_heap w) (namelist_mod_of env args) k)
                    (default_section k).
Proof.
  intros Hm Hok Hal.
  apply init_returns_inv in Hok as (n & Hb & ->).
  destruct (build_namelist_sections _ _ _ _ _ Hb Hm)
    as (Hboth & Hkeep & Hnew & Hnone).
  unfold config, handle, two_level_merge. cbn [namelist mbind option_bind].
  unfold section_of at 2. rewrite Hm. cbn [mbind option_bind].
  destruct (md !! k) as [s|] eqn:Hk; cbn [mbind option_bind].
  - destruct (Hal s eq_refl) as [sd Hsd]. rewrite Hsd.
    destruct (default_section k) as [dd|] eqn:Hd; simpl.
    + by eapply Hboth.
    + by eapply Hnew.
  - destruct (default_section k) as [dd|] eqn:Hd; simpl.
    + by eapply Hkeep.
    + by eapply Hnone.
Qed.

(** ** Independence of constructions *)

(** C3: two constructions, one after the other, do not touch each
    other's configuration, whatever their names and override mappings
    (the same mapping, the shared default, the first experiment's own
    namelist).  The second construction, whether it returns or not,
    leaves every section of the first experiment as it was; and after
    both, each experiment is configured by its own override mapping and
    the defaults alone: the first by its mapping as it was before any
    construction, the second by its mapping as the caller passed it,
    which the first construction has not changed.  An experiment built
    second without [namelist_mod] has exactly the defaults, whatever the
    first was given. *)
Theorem constructions_do_not_interfere ext env args1 args2 w exp1 :
  heap_closed (w_heap w) →
  is_Some (h_maps (w_heap w) !! namelist_mod_of env args1) →
  (__init__ ext env args1 w).2 = Ok exp1 →
  is_Some (h_maps (w_heap (__init__ ext env args1 w).1)
             !! namelist_mod_of env args2) →
  (∀ k,
     config (w_heap (__init__ ext env args2 (__init__ ext env args1 w).1).1)
            exp1 k
     = config (w_heap (__init__ ext env args1 w).1) exp1 k)
  ∧ (∀ k,
       config (w_heap (__init__ ext env args2 (__init__ ext env args1 w).1).1)
              exp1 k
       = two_level_merge
           (section_of (w_heap w) (namelist_mod_of env args1) k)
           (default_section k))
  ∧ (∀ exp2,
       (__init__ ext env args2 (__init__ ext env args1 w).1).2 = Ok exp2 →
       ∀ k,
         config
           (w_heap (__init__ ext env args2 (__init__ ext env args1 w).1).1)
           exp2 k
         = two_level_merge
             (section_of (w_heap (__init__ ext env args1 w).1)
                         (namelist_mod_of env args2) k)
             (default_section k))
  ∧ (is_Some (h_maps (w_heap w) !! namelist_mod_of env args2) →
       ∀ k, section_of (w_heap (__init__ ext env args1 w).1)
                       (namelist_mod_of env args2) k
            = section_of (w_heap w) (namelist_mod_of env args2) k)
  ∧ (∀ exp2,
       (__init__ ext env args2 (__init__ ext env args1 w).1).2 = Ok exp2 →
       a_namelist_mod args2 = None →
       h_maps (w_heap w) !! default_namelist_mod env = Some ∅ →
       ∀ k,
         config
           (w_heap (__init__ ext env args2 (__init__ ext env args1 w).1).1)
           exp2 k
         = default_section k)
  ∧ ((∀ c l, ext c l = None) →
       ∃ exp2,
         (__init__ ext env args2 (__init__ ext env args1 w).1).2 = Ok exp2).
Proof.
  intros Hcl [md1 Hm1] Hok [md2 Hm2].
  pose proof (init_closed ext env args1 w md1 Hm1 Hcl) as Hcl1.
  assert (Hkeep : ∀ k,
    config (w_heap (__init__ ext env args2 (__init__ ext env args1 w).1).1)
           exp1 k
    = config (w_heap (__init__ ext env args1 w).1) exp1 k).
  { intros k. pose proof Hok as Hok'.
    apply init_returns_inv in Hok' as (n1 & Hb & ->).
    destruct (build_namelist_spec _ _ _ _ _ Hb Hm1)
      as (_ & _ & _ & nd1 & Hn1 & _).
    unfold config, handle. simpl.
    apply (init_preserves_sections ext env args2 _ md2); done. }
  assert (Hsecond : ∀ exp2,
    (__init__ ext env args2 (__init__ ext env args1 w).1).2 = Ok exp2 →
    ∀ k,
      config (w_heap (__init__ ext env args2 (__init__ ext env args1 w).1).1)
             exp2 k
      = two_level_merge
          (section_of (w_heap (__init__ ext env args1 w).1)
                      (namelist_mod_of env args2) k)
          (default_section k)).
  { intros exp2 Hok2 k.
    apply (init_config_cases ext env args2 _ md2); try done.
    intros s Hs. apply (Hcl1 _ _ Hm2 _ _ Hs). }
  split; [done |]. split_and!.
  - intros k. rewrite Hkeep.
    apply (init_config_cases ext env args1 w md1); try done.
    intros s Hs. apply (Hcl _ _ Hm1 _ _ Hs).
  - done.
  - intros [md Hm] k.
    apply (init_preserves_sections ext env args1 w md1); done.
  - intros exp2 Hok2 Hnone H0 k. rewrite (Hsecond exp2 Hok2 k).
    assert (Hm0 : h_maps (w_heap (__init__ ext env args1 w).1)
                    !! namelist_mod_of env args2 = Some ∅).
    { unfold namelist_mod_of. rewrite Hnone. cbn [default].
      destruct (init_frame ext env args1 w md1 Hm1) as (Fm & _).
      rewrite Fm; [done | by eexists]. }
    unfold section_of. rewrite Hm0. cbn [mbind option_bind].
    rewrite lookup_empty. cbn [mbind option_bind].
    unfold two_level_merge. by destruct (default_section k).
  - intros Hquiet. by apply (init_returns_handle ext env args2 _ md2).
Qed.

Lemma constructions_do_not_interfere_witness :
  config (w_heap (__init__ quiet sample_env sample_args'
                    (__init__ quiet sample_env sample_args sample_world).1).1)
         (handle sample_env sample_args' 4%positive) "main_nml"
  = default_section "main_nml".
Proof.
  refine (proj1 (proj2 (proj2 (proj2 (proj2
            (constructions_do_not_interfere quiet sample_env sample_args
               sample_args' sample_world
               (handle sample_env sample_args 3%positive) _ _ _ _)))))
            (handle sample_env sample_args' 4%positive) _ _ _ "main_nml").
  - apply (bool_decide_unpack _). vm_compute. reflexivity.
  - apply (bool_decide_unpack _). vm_compute. reflexivity.
  - evaluate.
  - apply (bool_decide_unpack _). vm_compute. reflexivity.
  - evaluate.
  - evaluate.
  - evaluate.
Defined.

(** C10: a construction does not write to the override mapping it is
    given: the mapping holds the same sections, with the same key/value
    pairs, after the construction as before.  The dict that is the default
    of [namelist_mod] stays empty through any sequence of constructions
    that leave the argument out. *)
Theorem override_mapping_not_mutated ext env args w md :
  heap_closed (w_heap w) →
  h_maps (w_heap w) !! namelist_mod_of env args = Some md →
  h_maps (w_heap (__init__ ext env args w).1) !! namelist_mod_of env args
  = Some md
  ∧ (∀ k, section_of (w_heap (__init__ ext env args w).1)
                     (namelist_mod_of env args) k
          = section_of (w_heap w) (namelist_mod_of env args) k)
  ∧ (∀ w0 calls,
       h_maps (w_heap w0) !! default_namelist_mod env = Some ∅ →
       Forall (λ a, a_namelist_mod a = None) calls →
       h_maps (w_heap (construct_all ext env calls w0))
         !! default_namelist_mod env = Some ∅).
Proof.
  intros Hcl Hm. split_and!.
  - destruct (init_frame ext env args w md Hm) as (Fm & _).
    rewrite Fm; [done | by eexists].
  - apply (init_preserves_sections ext env args w md); done.
  - intros w0 calls. revert w0.
    induction calls as [|a calls IH]; intros w0 H0 Hall; [done |].
    apply Forall_cons in Hall as [Ha Hall].
    cbn [construct_all]. apply IH; [| done].
    assert (Hm0 : h_maps (w_heap w0) !! namelist_mod_of env a = Some ∅).
    { unfold namelist_mod_of. by rewrite Ha. }
    destruct (init_frame ext env a w0 ∅ Hm0) as (Fm & _).
    rewrite Fm; [done | by eexists].
Qed.

Lemma override_mapping_not_mutated_witness :
  h_maps (w_heap (__init__ quiet sample_env sample_args sample_world).1)
    !! namelist_mod_of sample_env sample_args
  = Some sample_mod_dict.
Proof.
  refine (proj1 (override_mapping_not_mutated quiet sample_env sample_args
                   sample_world sample_mod_dict _ _)).
  - apply (bool_decide_unpack _). vm_compute. reflexivity.
  - evaluate.
Defined.

(** ** Exceptions

    The script has no [try]: its computations are built from framework
    calls, log entries and store operations by sequencing alone, and
    sequencing passes an exception on. *)

Section Unhandled.

Variable ext : call → list event → option exn.

Lemma all_returned_nil log0 : all_returned ext log0 [].
Proof. intros pre c post H. by destruct (app_cons_not_nil _ _ _ H). Qed.

Lemma all_returned_one log0 e :
  (∀ c, e = ECall c → ext c log0 = None) → all_returned ext log0 [e].
Proof.
  intros He pre c post H. symmetry in H.
  apply elt_eq_unit in H as (<- & -> & _).
  rewrite app_nil_r. by apply He.
Qed.

Lemma all_returned_app log0 a b :
  all_returned ext log0 a → all_returned ext (log0 ++ a) b →
  all_returned ext log0 (a ++ b).
Proof.
  intros Ha Hb pre c post H.
  apply app_eq_app in H as (l & [(-> & Hl) | (-> & ->)]).
  - destruct l as [|x l]; simpl in Hl.
    + rewrite app_nil_r in Hb. specialize (Hb [] c post).
      rewrite app_nil_r in Hb. by apply Hb.
    + injection Hl as <- ->. by apply (Ha pre c l).
  - rewrite app_assoc. by apply (Hb l c post).
Qed.

(** The first framework call that raises ends the computation, with the
    exception it raised. *)
Lemma unhandled_first_failure {A} log0 new (r : result A) pre c post e :
  unhandled ext log0 new r →
  new = pre ++ ECall c :: post →
  ext c (log0 ++ pre) = Some e →
  r = Raise e ∧ post = [].
Proof.
  intros Hun -> He. destruct r as [a | e' |]; simpl in Hun.
  - rewrite (Hun pre c post eq_refl) in He. done.
  - destruct Hun as (pre' & c' & Heq & Hq & He').
    apply app_eq_app in Heq as (l & [(-> & Hl) | (-> & Hl)]).
    + destruct l as [|x l]; simpl in Hl.
      * injection Hl as <- ->. rewrite app_nil_r in He. split; congruence.
      * injection Hl as _ Hl. by destruct (app_cons_not_nil _ _ _ Hl).
    + destruct l as [|x l]; simpl in Hl.
      * injection Hl as -> ->. rewrite app_nil_r in He'. split; congruence.
      * injection Hl as <- ->. rewrite (Hq pre c l eq_refl) in He. done.
  - rewrite (Hun pre c post eq_refl) in He. done.
Qed.

Lemma external_transparent c : transparent ext (external ext c).
Proof.
  intros w. exists [ECall c]. unfold external.
  destruct (ext c (w_log w)) as [e|] eqn:E; simpl; (split; [done |]).
  - exists [], c. rewrite app_nil_r. split_and!; try done.
    apply all_returned_nil.
  - apply all_returned_one. by intros c' [= <-].
Qed.

Lemma emit_transparent e :
  (∀ c, e ≠ ECall c) → transparent ext (emit e).
Proof.
  intros He w. exists [e]. split; [done |]. simpl.
  apply all_returned_one. intros c Hc. by destruct (He c).
Qed.

Lemma alloc_transparent {A} (f : heap → heap * A) : transparent ext (alloc f).
Proof.
  intros w. exists []. unfold alloc. destruct (f (w_heap w)). simpl.
  rewrite app_nil_r. split; [done |]. apply all_returned_nil.
Qed.

Lemma on_heap_transparent {A} (f : heap → option (heap * A)) :
  transparent ext (on_heap f).
Proof.
  intros w. exists []. unfold on_heap.
  destruct (f (w_heap w)) as [[h a]|]; simpl; rewrite app_nil_r;
    (split; [done |]); apply all_returned_nil.
Qed.

Lemma mret_transparent {A} (a : A) : transparent ext (mret a).
Proof.
  intros w. exists []. simpl. rewrite app_nil_r. split; [done |].
  apply all_returned_nil.
Qed.

Lemma bind_transparent {A B} (m : M A) (f : A → M B) :
  transparent ext m → (∀ a, transparent ext (f a)) →
  transparent ext (m ≫= f).
Proof.
  intros Hm Hf w. destruct (Hm w) as (new1 & Hlog1 & Hun1).
  unfold mbind, M_bind. destruct (m w) as [w1 [a | e |]]; simpl in *.
  - destruct (Hf a w1) as (new2 & Hlog2 & Hun2).
    exists (new1 ++ new2). split; [by rewrite Hlog2, Hlog1, app_assoc |].
    rewrite Hlog1 in Hun2.
    destruct ((f a w1).2) as [b | e |]; simpl in *.
    + by apply all_returned_app.
    + destruct Hun2 as (pre & c & -> & Hq & He).
      exists (new1 ++ pre), c. split_and!.
      * by rewrite app_assoc.
      * by apply all_returned_app.
      * by rewrite app_assoc.
    + by apply all_returned_app.
  - by exists new1.
  - by exists new1.
Qed.

Lemma init_transparent env args : transparent ext (__init__ ext env args).
Proof.
  unfold __init__.
  repeat (apply bind_transparent; intros);
    try apply external_transparent;
    try apply on_heap_transparent;
    try (by apply emit_transparent).
  destruct (a_kwargs args !! "resolution").
  - apply bind_transparent; intros;
      [apply external_transparent | apply mret_transparent].
  - apply mret_transparent.
Qed.

Lemma run_transparent self i num_cores use_restart mpirun_opts :
  transparent ext (run ext self i num_cores use_restart mpirun_opts).
Proof. apply external_transparent. Qed.

Lemma module_body_transparent base : transparent ext (module_body ext base).
Proof.
  unfold module_body. apply bind_transparent.
  - unfold define_class.
    apply bind_transparent; [apply external_transparent | intros _].
    apply bind_transparent; [apply alloc_transparent | intros m].
    apply mret_transparent.
  - intros env.
    apply bind_transparent; [apply alloc_transparent | intros m].
    apply init_transparent.
Qed.

Lemma script_transparent base name__ argv :
  transparent ext (script ext base name__ argv).
Proof.
  unfold script. apply bind_transparent; [apply module_body_transparent |].
  intros exp. case_decide.
  - apply bind_transparent; intros;
      [apply run_transparent | apply mret_transparent].
  - apply mret_transparent.
Qed.

(** What a computation without a handler shows to its caller. *)
Lemma transparent_propagates {A} (m : M A) w :
  transparent ext m →
  (∀ pre c post e,
     w_log (m w).1 = w_log w ++ pre ++ ECall c :: post →
     ext c (w_log w ++ pre) = Some e →
     (m w).2 = Raise e ∧ post = [])
  ∧ (∀ e, (m w).2 = Raise e →
       ∃ pre c, w_log (m w).1 = w_log w ++ pre ++ [ECall c]
                ∧ ext c (w_log w ++ pre) = Some e).
Proof.
  intros Hm. destruct (Hm w) as (new & Hlog & Hun). split.
  - intros pre c post e Hdec He.
    rewrite Hlog in Hdec. apply app_inv_head in Hdec.
    by eapply unhandled_first_failure.
  - intros e He. rewrite He in Hun. simpl in Hun.
    destruct Hun as (pre & c & -> & _ & Hc). by exists pre, c.
Qed.

End Unhandled.

(** C8: the script catches nothing and translates nothing.  In a
    construction, and in the whole script with its run, the first
    framework call that raises is the last thing done and its exception
    is the outcome; an exception that comes out is the one a framework
    call raised.  When the compilation fails, the construction stops
    there: the log shows the compile call alone, so neither the diagnostic
    table nor the namelist has been attached, and the store is as it
    was. *)
Theorem failures_propagate_unchanged ext base env args name__ argv w :
  (∀ pre c post e,
     w_log (__init__ ext env args w).1 = w_log w ++ pre ++ ECall c :: post →
     ext c (w_log w ++ pre) = Some e →
     (__init__ ext env args w).2 = Raise e ∧ post = [])
  ∧ (∀ e, (__init__ ext env args w).2 = Raise e →
       ∃ pre c,
         w_log (__init__ ext env args w).1 = w_log w ++ pre ++ [ECall c]
         ∧ ext c (w_log w ++ pre) = Some e)
  ∧ (∀ pre c post e,
       w_log (script ext base name__ argv w).1
       = w_log w ++ pre ++ ECall c :: post →
       ext c (w_log w ++ pre) = Some e →
       (script ext base name__ argv w).2 = Raise e ∧ post = [])
  ∧ (∀ e, (script ext base name__ argv w).2 = Raise e →
       ∃ pre c,
         w_log (script ext base name__ argv w).1 = w_log w ++ pre ++ [ECall c]
         ∧ ext c (w_log w ++ pre) = Some e)
  ∧ (∀ e, ext (CCompile (codebase_of env args)) (w_log w) = Some e →
       __init__ ext env args w
       = (World (w_heap w) (w_log w ++ [ev_compile env args]), Raise e)).
Proof.
  destruct (transparent_propagates ext (__init__ ext env args) w
              (init_transparent ext env args)) as (I1 & I2).
  destruct (transparent_propagates ext (script ext base name__ argv) w
              (script_transparent ext base name__ argv)) as (S1 & S2).
  split_and!; try done.
  intros e He. unfold __init__. by rewrite (external_raises ext _ _ _ e He).
Qed.

Lemma failures_propagate_unchanged_witness :
  __init__ compile_fails sample_env sample_args sample_world
  = (World (w_heap sample_world)
           (w_log sample_world ++ [ev_compile sample_env sample_args]),
     Raise compile_error).
Proof.
  refine (proj2 (proj2 (proj2 (proj2
            (failures_propagate_unchanged compile_fails "/base" sample_env
               sample_args "__main__" [] sample_world)))) compile_error _).
  reflexivity.
Defined.

(** ** The order of the events of a construction *)

(** C5: the first thing every construction does is the compile call, so
    whatever attaches a diagnostic table or a namelist to the handle comes
    after it in the log. *)
Theorem compile_precedes_configuration ext env args w :
  ∃ rest,
    w_log (__init__ ext env args w).1 = w_log w ++ ev_compile env args :: rest
    ∧ ∀ pre e post,
        ev_compile env args :: rest = pre ++ e :: post →
        is_attach e →
        ev_compile env args ∈ pre.
Proof.
  destruct (init_outcome_intro ext env args w) as (new & Hlog & Hout).
  assert (∃ rest, new = ev_compile env args :: rest) as (rest & ->)
    by (destruct Hout; by eexists).
  exists rest. split; [done |].
  intros [|x pre] e post Hdec Hatt; simpl in Hdec.
  - injection Hdec as <- _. by destruct Hatt.
  - injection Hdec as <- _. left.
Qed.

(** Membership in a list written out, one case per element. *)
Ltac each_member H :=
  repeat (apply elem_of_cons in H as [H | H]);
  [ .. | by apply elem_of_nil in H ].

(** No construction performs a run. *)
Lemma init_no_run ext env args w :
  ∃ new, w_log (__init__ ext env args w).1 = w_log w ++ new
         ∧ Forall (λ e, ¬ is_run e) new.
Proof.
  destruct (init_outcome_intro ext env args w) as (new & Hlog & Hout).
  exists new. split; [done |].
  destruct Hout; repeat (apply Forall_cons; split; [by intros [] |]);
    apply Forall_nil_2.
Qed.

(** C7: [set_resolution] is called in a construction if and only if a
    [resolution] keyword is supplied.  Only if: a call of it in the log
    comes with a supplied keyword, has the supplied sequence unpacked as
    its arguments, and is the last event, after the diagnostic table and
    the namelist have been attached.  If: when [compile],
    [Experiment.__init__] and [Namelist] return, the construction makes
    exactly the five steps before line 66 and then the call when the
    keyword is supplied, nothing more when it is not; so does every
    construction that returns, and a construction returns when no
    framework call raises.  No construction performs a run. *)
Theorem resolution_applied_iff_supplied ext env args w :
  ∃ new,
    w_log (__init__ ext env args w).1 = w_log w ++ new
    ∧ Forall (λ e, ¬ is_run e) new
    ∧ (∀ e, e ∈ new → is_set_resolution e →
         ∃ r n,
           a_kwargs args !! "resolution" = Some r
           ∧ e = ev_resolution args r
           ∧ new = [ev_compile env args; ev_super env args; ev_diag args;
                    ev_wrap args n; ev_namelist args n] ++ [e])
    ∧ (∀ n r, ev_namelist args n ∈ new →
         a_kwargs args !! "resolution" = Some r →
         ev_resolution args r ∈ new)
    ∧ (∀ exp, (__init__ ext env args w).2 = Ok exp →
         ∃ n,
           namelist exp = Some n
           ∧ new = [ev_compile env args; ev_super env args; ev_diag args;
                    ev_wrap args n; ev_namelist args n]
                   ++ match a_kwargs args !! "resolution" with
                      | Some r => [ev_resolution args r]
                      | None => []
                      end)
    ∧ (∀ md,
         heap_closed (w_heap w) →
         h_maps (w_heap w) !! namelist_mod_of env args = Some md →
         ext (CCompile (codebase_of env args)) (w_log w) = None →
         ext (CExperimentInit (a_name args) (codebase_of env args))
             (w_log w ++ [ev_compile env args]) = None →
         (∀ n, ext (CNamelist (a_name args) n)
                   (w_log w ++ [ev_compile env args; ev_super env args;
                                ev_diag args]) = None) →
         ∃ n,
           new = [ev_compile env args; ev_super env args; ev_diag args;
                  ev_wrap args n; ev_namelist args n]
                 ++ match a_kwargs args !! "resolution" with
                    | Some r => [ev_resolution args r]
                    | None => []
                    end)
    ∧ (∀ md,
         heap_closed (w_heap w) →
         h_maps (w_heap w) !! namelist_mod_of env args = Some md →
         (∀ c l, ext c l = None) →
         ∃ exp, (__init__ ext env args w).2 = Ok exp).
Proof.
  destruct (init_no_run ext env args w) as (new0 & Hlog0 & Hnorun).
  destruct (init_outcome_intro ext env args w) as (new & Hlog & Hout).
  assert (new0 = new) as ->.
  { rewrite Hlog0 in Hlog. by apply app_inv_head in Hlog. }
  exists new. split; [done |]. split; [done |].
  assert (Htotal : ∀ md,
            heap_closed (w_heap w) →
            h_maps (w_heap w) !! namelist_mod_of env args = Some md →
            (∀ c l, ext c l = None) →
            ∃ exp, (__init__ ext env args w).2 = Ok exp).
  { intros md Hcl Hm Hquiet. by eapply init_returns_handle. }
  remember ((__init__ ext env args w).2) as res eqn:Hres. clear Hres.
  remember (w_heap (__init__ ext env args w).1) as h eqn:Hh.
  clear Hh Hlog0 Hlog.
  split_and!.
  - intros ev Hin Hset.
    destruct Hout; each_member Hin; subst ev;
      try (by destruct Hset); by exists r, n.
  - intros n' r' Hin Hsome.
    destruct Hout; each_member Hin; try done;
      injection Hin as <-; simplify_eq; repeat ((by left) || right).
  - intros exp Hexp.
    destruct Hout as [| | | | h n ? ? ? ? Hkw | | h n r ? ? ? ? Hkw ?];
      try done; injection Hexp as <-; exists n; (split; [done |]);
      by rewrite Hkw.
  - intros md Hcl Hm Hc Hs Hn.
    destruct Hout as [e Hc' | e ? Hs' | ? ? Hstuck | h n e ? ? ? Hn'
                     | h n ? ? ? ? Hkw | h n r e ? ? ? ? Hkw ?
                     | h n r ? ? ? ? Hkw ?].
    + congruence.
    + congruence.
    + destruct (build_namelist_total _ _ _ Hm (λ k s, Hcl _ _ Hm k s))
        as [x Hx]. congruence.
    + rewrite Hn in Hn'. done.
    + exists n. by rewrite Hkw.
    + exists n. by rewrite Hkw.
    + exists n. by rewrite Hkw.
  - exact Htotal.
Qed.

Lemma resolution_applied_iff_supplied_witness :
  ECall (CSetResolution "second" [VStr "T42"; VInt 25])
  ∈ w_log (__init__ quiet sample_env sample_args' sample_world).1.
Proof.
  destruct (resolution_applied_iff_supplied quiet sample_env sample_args'
              sample_world) as (new & Hlog & _ & _ & _ & _ & Hmade & _).
  destruct (Hmade ∅) as (n & Hnew).
  - apply (bool_decide_unpack _). vm_compute. reflexivity.
  - evaluate.
  - reflexivity.
  - reflexivity.
  - intros n. reflexivity.
  - rewrite Hlog, Hnew.
    apply elem_of_app. right. apply elem_of_app. right.
    change (a_kwargs sample_args' !! "resolution") with (Some RESOLUTION).
    apply list_elem_of_here.
Defined.

(** ** The entry point *)

Lemma bind_returns {A B} (m : M A) (f : A → M B) w a :
  (m w).2 = Ok a → (m ≫= f) w = f a (m w).1.
Proof.
  unfold mbind, M_bind. destruct (m w) as [w1 r]. simpl. by intros ->.
Qed.

Lemma bind_stops {A B} (m : M A) (f : A → M B) w :
  (∀ a, (m w).2 ≠ Ok a) → ((m ≫= f) w).1 = (m w).1.
Proof.
  unfold mbind, M_bind. destruct (m w) as [w1 [a | e |]]; try done.
  intros H. by destruct (H a).
Qed.

Lemma define_class_returns ext base w :
  ext (CFromDirectory base) (w_log w) = None →
  define_class ext base w
  = (World (new_map ∅ (w_heap w)).1 (w_log w ++ [ECall (CFromDirectory base)]),
     Ok (ClassEnv (from_directory base) (new_map ∅ (w_heap w)).2)).
Proof.
  intros E. unfold define_class.
  rewrite (external_returns ext _ _ _ E). by rewrite alloc_step.
Qed.

Lemma define_class_raises ext base w e :
  ext (CFromDirectory base) (w_log w) = Some e →
  define_class ext base w
  = (World (w_heap w) (w_log w ++ [ECall (CFromDirectory base)]), Raise e).
Proof.
  intros E. unfold define_class. by rewrite (external_raises ext _ _ _ e E).
Qed.

Lemma module_body_raises ext base w e :
  ext (CFromDirectory base) (w_log w) = Some e →
  module_body ext base w
  = (World (w_heap w) (w_log w ++ [ECall (CFromDirectory base)]), Raise e).
Proof.
  intros E. unfold module_body, mbind, M_bind.
  by rewrite (define_class_raises ext base w e E).
Qed.

Lemma module_body_returns ext base w :
  ext (CFromDirectory base) (w_log w) = None →
  module_body ext base w
  = __init__ ext
      (ClassEnv (from_directory base) (new_map ∅ (w_heap w)).2)
      (script_args (dict_literal script_namelist_mod
                      (new_map ∅ (w_heap w)).1).2)
      (World (dict_literal script_namelist_mod (new_map ∅ (w_heap w)).1).1
             (w_log w ++ [ECall (CFromDirectory base)])).
Proof.
  intros E. unfold module_body.
  rewrite (bind_returns _ _ w _ (f_equal snd (define_class_returns ext base w E))).
  rewrite (define_class_returns ext base w E). cbn [fst].
  by rewrite alloc_step.
Qed.

(** Lines 20-164 perform no run, and the experiment they build has the
    name given at line 159. *)
Lemma module_body_spec ext base w :
  (∃ new, w_log (module_body ext base w).1 = w_log w ++ new
          ∧ Forall (λ e, ¬ is_run e) new)
  ∧ ∀ exp, (module_body ext base w).2 = Ok exp →
           exp_name exp = "superrotation_nzforcing_q1_long".
Proof.
  destruct (ext (CFromDirectory base) (w_log w)) as [e|] eqn:E.
  - rewrite (module_body_raises ext base w e E). simpl. split; [| done].
    eexists. split; [done |].
    apply Forall_cons. split; [by intros [] | apply Forall_nil_2].
  - rewrite (module_body_returns ext base w E).
    set (w1 := World _ _). set (env := ClassEnv _ _).
    set (m := (dict_literal _ _).2).
    split.
    + destruct (init_no_run ext env (script_args m) w1) as (new & Hlog & Hno).
      exists (ECall (CFromDirectory base) :: new). split.
      * rewrite Hlog. unfold w1. simpl. by rewrite <- app_assoc.
      * apply Forall_cons. split; [by intros [] | done].
    + intros exp Hok. apply init_returns_inv in Hok as (n & _ & ->). done.
Qed.

(** On a store without dangling references, and with no framework call
    raising, lines 20-164 build the experiment. *)
Lemma module_body_returns_handle ext base w :
  heap_closed (w_heap w) →
  (∀ c l, ext c l = None) →
  ∃ exp, (module_body ext base w).2 = Ok exp.
Proof.
  intros Hcl Hquiet. rewrite (module_body_returns ext base w (Hquiet _ _)).
  destruct (dict_literal_closed script_namelist_mod (new_map ∅ (w_heap w)).1
              script_namelist_mod_NoDup (new_map_empty_closed _ Hcl))
    as (Hcl1 & [md Hm]).
  by apply (init_returns_handle ext _ _ _ md).
Qed.

(** C6: run as the entry point, the script performs one run, and only
    when the experiment of lines 159-164 has been built: the run is of
    that experiment, segment 1, on [NCORES] cores, without restart, and
    its launcher options are the command-line arguments after the script
    name, joined by single spaces.  Nothing before it is a run; a module
    that is imported, or whose construction fails, performs none. *)
Theorem entry_point_runs_once ext base argv w :
  (∃ new, w_log (module_body ext base w).1 = w_log w ++ new
          ∧ Forall (λ e, ¬ is_run e) new)
  ∧ (∀ exp, (module_body ext base w).2 = Ok exp →
       w_log (script ext base "__main__" argv w).1
       = w_log (module_body ext base w).1
         ++ [ECall (CRun "superrotation_nzforcing_q1_long" 1 16 false
                         (String.concat " " (tail argv)))])
  ∧ (∀ name__, name__ ≠ "__main__" →
       script ext base name__ argv w = module_body ext base w)
  ∧ (∀ name__, (∀ exp, (module_body ext base w).2 ≠ Ok exp) →
       (script ext base name__ argv w).1 = (module_body ext base w).1)
  ∧ (heap_closed (w_heap w) → (∀ c l, ext c l = None) →
       ∃ exp, (module_body ext base w).2 = Ok exp).
Proof.
  destruct (module_body_spec ext base w) as (Hnorun & Hname).
  split; [done |]. split_and!; [| | | apply module_body_returns_handle].
  - intros exp Hok. unfold script. rewrite (bind_returns _ _ w exp Hok).
    rewrite decide_True by done. unfold run.
    rewrite (Hname exp Hok). unfold NCORES.
    unfold mbind, M_bind, external.
    by destruct (ext _ (w_log (module_body ext base w).1)).
  - intros name__ Hne. unfold script, mbind, M_bind.
    destruct (module_body ext base w) as [w1 [exp | e |]]; try done.
    by rewrite decide_False.
  - intros name__ Hfail. unfold script. by apply bind_stops.
Qed.

Lemma entry_point_runs_once_witness :
  w_log (script quiet "/base" "__main__" ["script.py"; "-np"; "4"]
           (World empty_heap [])).1
  = w_log (module_body quiet "/base" (World empty_heap [])).1
    ++ [ECall (CRun "superrotation_nzforcing_q1_long" 1 16 false
                    (String.concat " " (tail ["script.py"; "-np"; "4"])))].
Proof.
  refine (proj1 (proj2 (entry_point_runs_once quiet "/base"
                          ["script.py"; "-np"; "4"] (World empty_heap [])))
            (handle (ClassEnv (from_directory "/base") 1%positive)
                    (script_args 2%positive) 3%positive) _).
  evaluate.
Defined.

(** * Further properties of the script *)

(** ** The namelist a construction builds, as a whole *)





(** ** The default namelist *)

(** X3: every call of [default_namelist] returns a dict that did not exist
    before, whose sections are objects that did not exist before, one
    object per section name; read back, it gives the default contents of
    each section; and the call changes no object that existed. *)
Theorem default_namelist_builds_new_objects h :
  h_maps h !! (default_namelist h).2 = None
  ∧ (∀ k, section_of (default_namelist h).1 (default_namelist h).2 k
          = default_section k)
  ∧ (∀ nd k t,
       h_maps (default_namelist h).1 !! (default_namelist h).2 = Some nd →
       nd !! k = Some t →
       h_secs h !! t = None ∧ ∀ k', nd !! k' = Some t → k' = k)
  ∧ (∀ l, is_Some (h_maps h !! l) →
       h_maps (default_namelist h).1 !! l = h_maps h !! l)
  ∧ (∀ l, is_Some (h_secs h !! l) →
       h_secs (default_namelist h).1 !! l = h_secs h !! l).
Proof.
  unfold default_namelist.
  destruct (dict_literal default_sections h) as [h1 n] eqn:Hlit.
  apply dict_literal_spec in Hlit
    as (D & Hfresh & Hmaps & Hfr & Hnone & Hsome & Hinj);
    [| apply default_sections_NoDup].
  cbn [fst snd]. split_and!; try done.
  - intros k. unfold section_of. rewrite Hmaps, lookup_insert_eq.
    cbn [mbind option_bind].
    destruct (D !! k) as [t|] eqn:Hk; cbn [mbind option_bind].
    + destruct (Hsome _ _ Hk) as (_ & d & Hd & Hlk).
      rewrite Hlk. symmetry. exact Hd.
    + symmetry. by apply Hnone.
  - intros nd k t Hn Hk. rewrite Hmaps, lookup_insert_eq in Hn.
    injection Hn as <-. destruct (Hsome _ _ Hk) as (Hnot & _).
    split; [done |]. intros k' Hk'. by eapply Hinj.
  - intros l Hl. rewrite Hmaps. apply lookup_insert_ne. intros ->.
    rewrite Hfresh in Hl. by destruct Hl.
Qed.

(** ** The order of the loop *)

(** Two runs of the loop over the same keys, in two orders, from a
    namelist whose sections are distinct objects that the override does
    not hold, end in the same store. *)
Lemma merge_keys_order n m ks1 ks2 h h1 h2 nd md :
  n ≠ m → NoDup ks1 → ks1 ≡ₚ ks2 →
  h_maps h !! n = Some nd → h_maps h !! m = Some md →
  (∀ k, k ∈ ks1 → is_Some (md !! k)) →
  (∀ k s, md !! k = Some s → is_Some (h_secs h !! s)) →
  (∀ k t, nd !! k = Some t → is_Some (h_secs h !! t)) →
  (∀ k k' t, nd !! k = Some t → nd !! k' = Some t → k = k') →
  (∀ k k' t, nd !! k = Some t → md !! k' ≠ Some t) →
  merge_keys n m ks1 h = Some h1 →
  merge_keys n m ks2 h = Some h2 →
  h1 = h2.
Proof.
  intros Hnm Hnd1 Hperm Hn Hm Hkeys Halm Haln Hinj Hsep H1 H2.
  assert (Hnd2 : NoDup ks2) by (by rewrite <- Hperm).
  destruct (merge_keys_inv n m ks1 h h1 nd md Hnm Hnd1 H1 Hn Hm)
    as (A1 & (nd1 & Hn1 & A2) & A3 & _).
  destruct (merge_keys_inv n m ks2 h h2 nd md Hnm Hnd2 H2 Hn Hm)
    as (B1 & (nd2 & Hn2 & B2) & B3 & _).
  assert (Hmaps : h_maps h1 = h_maps h2).
  { apply map_eq. intros l. destruct (decide (l = n)) as [-> | Hl].
    - rewrite Hn1, Hn2. f_equal. apply map_eq. intros k.
      rewrite A2, B2. destruct (nd !! k); [done |].
      destruct (decide (k ∈ ks1)) as [Hin | Hout].
      + rewrite decide_True; [done | by rewrite <- Hperm].
      + rewrite decide_False; [done | by rewrite <- Hperm].
    - by rewrite A1, B1. }
  assert (Hsecs : h_secs h1 = h_secs h2).
  { apply map_eq. intros l.
    destruct (decide (Exists (λ k, nd !! k = Some l) ks1)) as [Hex | Hno].
    - apply Exists_exists in Hex as (k & Hk & Hkl).
      assert (Hk2 : k ∈ ks2) by (by rewrite <- Hperm).
      destruct (Hkeys k Hk) as [s Hs].
      destruct (Halm _ _ Hs) as [sd Hsd].
      destruct (Haln _ _ Hkl) as [td Htd].
      rewrite (merge_keys_update n m ks1 h h1 nd md k l s td sd); try done.
      + rewrite (merge_keys_update n m ks2 h h2 nd md k l s td sd); try done.
        * intros k' _ Hne Hk'. apply Hne. by eapply Hinj.
        * intros k' _ _ Hk'. by destruct (Hsep _ _ _ Hk' Hs).
      + intros k' _ Hne Hk'. apply Hne. by eapply Hinj.
      + intros k' _ _ Hk'. by destruct (Hsep _ _ _ Hk' Hs).
    - rewrite A3, B3; [done | |].
      + intros k Hk Hkl. apply Hno. apply Exists_exists. exists k.
        split; [by rewrite Hperm | done].
      + intros k Hk Hkl. apply Hno. apply Exists_exists. by exists k. }
  destruct h1, h2. simpl in *. by subst.
Qed.

(** X4: the namelist lines 58-63 build does not depend on the order in
    which [for key in namelist_mod] visits the keys: visiting them in any
    order ends in the same store as the order of the dict. *)
Theorem merge_order_is_irrelevant m h md ks :
  h_maps h !! m = Some md →
  (∀ k s, md !! k = Some s → is_Some (h_secs h !! s)) →
  ks ≡ₚ dict_keys md →
  is_Some (merge_namelist (default_namelist h).2 m (default_namelist h).1)
  ∧ merge_keys (default_namelist h).2 m ks (default_namelist h).1
    = merge_namelist (default_namelist h).2 m (default_namelist h).1.
Proof.
  intros Hm Hal Hperm. unfold default_namelist.
  destruct (dict_literal default_sections h) as [h1 n] eqn:Hlit.
  apply dict_literal_spec in Hlit
    as (D & Hfresh & Hmaps & Hfr & Hnone & Hsome & Hinj);
    [| apply default_sections_NoDup].
  cbn [fst snd].
  assert (Hnm : n ≠ m) by congruence.
  assert (Hn1 : h_maps h1 !! n = Some D) by (by rewrite Hmaps, lookup_insert_eq).
  assert (Hm1 : h_maps h1 !! m = Some md) by (by rewrite Hmaps, lookup_insert_ne).
  assert (Halm : ∀ k s, md !! k = Some s → is_Some (h_secs h1 !! s)).
  { intros k s Hs. rewrite Hfr; by eapply Hal. }
  assert (Haln : ∀ k t, D !! k = Some t → is_Some (h_secs h1 !! t)).
  { intros k t Hk. destruct (Hsome _ _ Hk) as (_ & d & _ & Hlk). by eexists. }
  assert (Hsep : ∀ k k' t, D !! k = Some t → md !! k' ≠ Some t).
  { intros k k' t Hk Hk'. destruct (Hsome _ _ Hk) as (Hnot & _).
    destruct (Hal _ _ Hk') as [x Hx]. congruence. }
  unfold merge_namelist. rewrite Hm1. cbn [mbind option_bind].
  assert (Htot : ∀ l, (∀ k, k ∈ l → k ∈ dict_keys md) →
                      is_Some (merge_keys n m l h1)).
  { intros l Hl. apply (merge_keys_total n m l h1 D md); try done.
    intros k Hk. apply Hl, elem_of_dict_keys in Hk as [s Hs].
    exists s. split; [done | by eapply Halm]. }
  destruct (Htot (dict_keys md)) as [ha Ha]; [done |].
  destruct (Htot ks) as [hb Hb]; [intros k Hk; by rewrite <- Hperm |].
  split; [by rewrite Ha |]. rewrite Ha, Hb. f_equal.
  apply (merge_keys_order n m ks (dict_keys md) h1 hb ha D md); try done.
  - rewrite Hperm. apply dict_keys_NoDup.
  - intros k Hk. apply elem_of_dict_keys. by rewrite <- Hperm.
Qed.

Lemma merge_order_is_irrelevant_witness :
  merge_keys (default_namelist sample_heap).2 sample_mod
             ["extra_nml"; "main_nml"] (default_namelist sample_heap).1
  = merge_namelist (default_namelist sample_heap).2 sample_mod
                   (default_namelist sample_heap).1.
Proof.
  refine (proj2 (merge_order_is_irrelevant sample_mod sample_heap
                   sample_mod_dict ["extra_nml"; "main_nml"] _ _ _)).
  - evaluate.
  - intros k s Hs. apply (bool_decide_unpack _).
    assert (s = 1%positive ∨ s = 2%positive) as [-> | ->].
    { unfold sample_mod_dict in Hs.
      rewrite lookup_insert in Hs. case_decide; [left; congruence |].
      rewrite lookup_singleton in Hs. case_decide; [right; congruence | done]. }
    + vm_compute. reflexivity.
    + vm_compute. reflexivity.
  - assert (dict_keys sample_mod_dict = ["main_nml"; "extra_nml"]) as ->
      by (vm_compute; reflexivity).
    apply perm_swap.
Defined.

(** ** Which objects a namelist holds *)

(** X5: in the namelist lines 58-63 build, a section the override brings
    under a new name is the override's own object (line 63 stores the
    reference, it does not copy), while a section under a default name is
    an object that did not exist before the call, so it is not an object
    of the override nor of any namelist built earlier. *)
Theorem new_sections_are_shared_default_sections_are_new m h h' n md nd :
  build_namelist m h = Some (h', n) →
  h_maps h !! m = Some md →
  h_maps h' !! n = Some nd →
  (∀ k s, default_section k = None → md !! k = Some s → nd !! k = Some s)
  ∧ (∀ k, is_Some (default_section k) →
       ∃ t, nd !! k = Some t ∧ h_secs h !! t = None
            ∧ ∀ k' s, md !! k' = Some s → is_Some (h_secs h !! s) → s ≠ t).
Proof.
  intros Hb Hm Hn.
  destruct (build_namelist_spec _ _ _ _ _ Hb Hm)
    as (_ & _ & _ & nd' & Hn' & Hnew & Hdef).
  rewrite Hn in Hn'. injection Hn' as <-. split.
  - intros k s Hd Hs. by rewrite (Hnew _ Hd).
  - intros k [dd Hd]. destruct (Hdef _ _ Hd) as (t & Ht & Hfresh & _).
    exists t. split_and!; try done.
    intros k' s _ [x Hx] ->. congruence.
Qed.

Lemma new_sections_are_shared_default_sections_are_new_witness :
  sample_built_dict !! "extra_nml" = Some 2%positive.
Proof.
  refine (proj1 (new_sections_are_shared_default_sections_are_new sample_mod
                   sample_heap sample_built.1 sample_built.2 sample_mod_dict
                   sample_built_dict _ _ _) "extra_nml" 2%positive _ _);
    evaluate.
Defined.

Section Handles.

Variable ext : call → list event → option exn.

(** The section objects of a returned handle, in the store the
    construction leaves. *)
Lemma init_section_refs env args w md exp :
  h_maps (w_heap w) !! namelist_mod_of env args = Some md →
  (__init__ ext env args w).2 = Ok exp →
  ∃ n nd,
    namelist exp = Some n
    ∧ h_maps (w_heap w) !! n = None
    ∧ h_maps (w_heap (__init__ ext env args w).1) !! n = Some nd
    ∧ (∀ k, default_section k = None → nd !! k = md !! k)
    ∧ (∀ k, is_Some (default_section k) →
         ∃ t, nd !! k = Some t ∧ h_secs (w_heap w) !! t = None).
Proof.
  intros Hm Hok. apply init_returns_inv in Hok as (n & Hb & ->).
  destruct (build_namelist_spec _ _ _ _ _ Hb Hm)
    as (Hfresh & _ & _ & nd & Hn & Hnew & Hdef).
  exists n, nd. split_and!; try done.
  intros k [dd Hd]. destruct (Hdef _ _ Hd) as (t & Ht & Hnot & _). by exists t.
Qed.

End Handles.

(** X6: two experiments built one after the other have different namelist
    objects, and under every default section name they hold different
    section objects: writing into a default section of one cannot show in
    the other. *)
Theorem experiments_share_no_default_section
  ext env args1 args2 w exp1 exp2 :
  heap_closed (w_heap w) →
  is_Some (h_maps (w_heap w) !! namelist_mod_of env args1) →
  (__init__ ext env args1 w).2 = Ok exp1 →
  is_Some (h_maps (w_heap (__init__ ext env args1 w).1)
             !! namelist_mod_of env args2) →
  (__init__ ext env args2 (__init__ ext env args1 w).1).2 = Ok exp2 →
  namelist exp1 ≠ namelist exp2
  ∧ ∀ k, is_Some (default_section k) →
      ∃ t1 t2,
        section_ref
          (w_heap (__init__ ext env args2 (__init__ ext env args1 w).1).1)
          exp1 k = Some t1
        ∧ section_ref
            (w_heap (__init__ ext env args2 (__init__ ext env args1 w).1).1)
            exp2 k = Some t2
        ∧ t1 ≠ t2.
Proof.
  intros Hcl [md1 Hm1] Hok1 [md2 Hm2] Hok2.
  pose proof (init_closed ext env args1 w md1 Hm1 Hcl) as Hcl1.
  destruct (init_section_refs ext env args1 w md1 exp1 Hm1 Hok1)
    as (n1 & nd1 & Hx1 & _ & Hn1 & _ & Hdef1).
  destruct (init_section_refs ext env args2 _ md2 exp2 Hm2 Hok2)
    as (n2 & nd2 & Hx2 & Hfresh2 & Hn2 & _ & Hdef2).
  destruct (init_frame ext env args2 _ md2 Hm2) as (Fm & _).
  split.
  - rewrite Hx1, Hx2. intros [= ->]. congruence.
  - intros k Hk.
    destruct (Hdef1 k Hk) as (t1 & Ht1 & _).
    destruct (Hdef2 k Hk) as (t2 & Ht2 & Hnot2).
    exists t1, t2. unfold section_ref. rewrite Hx1, Hx2. simpl.
    rewrite Fm, Hn1, Hn2 by (by eexists). simpl. split_and!; try done.
    intros ->. destruct (Hcl1 _ _ Hn1 _ _ Ht1) as [x Hx]. congruence.
Qed.

Lemma experiments_share_no_default_section_witness :
  namelist (handle sample_env sample_args 3%positive)
  ≠ namelist (handle sample_env sample_args' 4%positive).
Proof.
  refine (proj1 (experiments_share_no_default_section quiet sample_env
                   sample_args sample_args' sample_world
                   (handle sample_env sample_args 3%positive)
                   (handle sample_env sample_args' 4%positive) _ _ _ _ _)).
  - apply (bool_decide_unpack _). vm_compute. reflexivity.
  - apply (bool_decide_unpack _). vm_compute. reflexivity.
  - evaluate.
  - apply (bool_decide_unpack _). vm_compute. reflexivity.
  - evaluate.
Defined.



(** ** Keyword arguments *)

(** X8: of the keyword arguments collected by [**kwargs] only
    [resolution] is looked at: any other keyword, a misspelt
    [resolution] included, is accepted and changes nothing, neither in
    the outcome nor in the log nor in the store. *)
Theorem other_keywords_are_ignored ext env args kw w :
  kw !! "resolution" = a_kwargs args !! "resolution" →
  __init__ ext env
    (InitArgs (a_name args) (a_codebase args) (a_output_freq args)
              (a_namelist_mod args) kw) w
  = __init__ ext env args w.
Proof.
  intros Hkw. unfold __init__, codebase_of, namelist_mod_of, output_freq_of.
  cbn [a_name a_codebase a_output_freq a_namelist_mod a_kwargs].
  by rewrite Hkw.
Qed.

Lemma other_keywords_are_ignored_witness :
  __init__ quiet sample_env
    (InitArgs (a_name sample_args) (a_codebase sample_args)
              (a_output_freq sample_args) (a_namelist_mod sample_args)
              {[ "resolutoin" := RESOLUTION ]}) sample_world
  = __init__ quiet sample_env sample_args sample_world.
Proof.
  refine (other_keywords_are_ignored quiet sample_env sample_args
            {[ "resolutoin" := RESOLUTION ]} sample_world _).
  evaluate.
Defined.

(** ** The experiment the script builds *)

Lemma script_main_log ext base argv w exp :
  (module_body ext base w).2 = Ok exp →
  w_log (script ext base "__main__" argv w).1
  = w_log (module_body ext base w).1
    ++ [ECall (CRun (exp_name exp) 1 NCORES false
                    (String.concat " " (tail argv)))].
Proof.
  intros Hok. unfold script. rewrite (bind_returns _ _ w exp Hok).
  rewrite decide_True by done. unfold run, mbind, M_bind, external.
  by destruct (ext _ (w_log (module_body ext base w).1)).
Qed.

(** When lines 20-164 return, the class statement returned and the rest
    is the construction of line 159. *)
Lemma module_body_returned ext base w exp :
  (module_body ext base w).2 = Ok exp →
  module_body ext base w
  = __init__ ext
      (ClassEnv (from_directory base) (new_map ∅ (w_heap w)).2)
      (script_args (dict_literal script_namelist_mod
                      (new_map ∅ (w_heap w)).1).2)
      (World (dict_literal script_namelist_mod (new_map ∅ (w_heap w)).1).1
             (w_log w ++ [ECall (CFromDirectory base)])).
Proof.
  intros Hok.
  destruct (ext (CFromDirectory base) (w_log w)) as [e|] eqn:E.
  - by rewrite (module_body_raises ext base w e E) in Hok.
  - by apply module_body_returns.
Qed.

(** X9: whenever the script performs its run, the call just before it is
    [set_resolution('T42', 25)] on the same experiment: the run never
    starts before the resolution of line 164 has been asked for. *)
Theorem script_runs_at_the_requested_resolution ext base argv w exp :
  (module_body ext base w).2 = Ok exp →
  ∃ pre,
    w_log (script ext base "__main__" argv w).1
    = w_log w ++ pre
      ++ [ ECall (CSetResolution "superrotation_nzforcing_q1_long"
                                 [VStr "T42"; VInt 25]);
           ECall (CRun "superrotation_nzforcing_q1_long" 1 16 false
                       (String.concat " " (tail argv))) ].
Proof.
  intros Hok. rewrite (script_main_log ext base argv w exp Hok).
  rewrite (module_body_returned ext base w exp Hok) in Hok |- *.
  set (env := ClassEnv _ _) in *. set (m := (dict_literal _ _).2) in *.
  set (w1 := World _ _) in *.
  destruct (init_outcome_intro ext env (script_args m) w1)
    as (new & Hlog & Hout).
  rewrite Hok in Hout.
  remember (w_heap (__init__ ext env (script_args m) w1).1) as h eqn:Hh.
  clear Hh.
  assert (Hkw : a_kwargs (script_args m) !! "resolution" = Some RESOLUTION)
    by apply lookup_singleton_eq.
  inversion Hout as [| | | | ? ? ? ? ? ? Hnone | |
                     ? n r ? ? ? ? Hsome ? Hnew Hexp]; subst.
  - congruence.
  - rewrite Hkw in Hsome. injection Hsome as <-.
    rewrite Hlog. unfold w1 at 1. cbn [w_log].
    eexists (ECall (CFromDirectory base)
               :: [ev_compile env (script_args m); ev_super env (script_args m);
                   ev_diag (script_args m); ev_wrap (script_args m) n;
                   ev_namelist (script_args m) n]).
    rewrite <- !app_assoc. reflexivity.
Qed.

Lemma script_runs_at_the_requested_resolution_witness :
  ∃ pre,
    w_log (script quiet "/base" "__main__" ["script.py"; "-np"; "4"]
             (World empty_heap [])).1
    = w_log (World empty_heap []) ++ pre
      ++ [ ECall (CSetResolution "superrotation_nzforcing_q1_long"
                                 [VStr "T42"; VInt 25]);
           ECall (CRun "superrotation_nzforcing_q1_long" 1 16 false
                       (String.concat " " (tail ["script.py"; "-np"; "4"]))) ].
Proof.
  refine (script_runs_at_the_requested_resolution quiet "/base"
            ["script.py"; "-np"; "4"] (World empty_heap [])
            (handle (ClassEnv (from_directory "/base") 1%positive)
                    (script_args 2%positive) 3%positive) _).
  evaluate.
Defined.



(** ** Compilation *)

Lemma compile_count_app a b :
  compile_count (a ++ b) = (compile_count a + compile_count b)%nat.
Proof. unfold compile_count. by rewrite filter_app, length_app. Qed.

(** A construction makes one compile call, however it ends. *)
Lemma init_compiles_once ext env args w :
  compile_count (w_log (__init__ ext env args w).1)
  = S (compile_count (w_log w)).
Proof.
  destruct (init_outcome_intro ext env args w) as (new & -> & Hout).
  rewrite compile_count_app.
  assert (compile_count new = 1%nat) as ->; [| lia].
  by destruct Hout.
Qed.

(** X11: every construction compiles, and compiles once: after any
    sequence of constructions the log holds one more compile call per
    construction, whether or not they are given the same codebase (the
    shared default included), and whether they return or raise. *)
Theorem every_construction_compiles ext env calls w :
  compile_count (w_log (construct_all ext env calls w))
  = (compile_count (w_log w) + length calls)%nat.
Proof.
  revert w. induction calls as [|args calls IH]; intros w; cbn [construct_all].
  - simpl. lia.
  - rewrite IH, init_compiles_once. simpl. lia.
Qed.

(** ** The class statement *)

(** X12: the default [codebase] is built when the class statement is
    executed, not when a construction needs it: if
    [DryCodeBase.from_directory(GFDL_BASE)] raises, the script stops with
    that exception before anything is compiled, built or run, whatever
    arguments line 159 passes. *)
Theorem default_codebase_failure_stops_the_script ext base name__ argv w e :
  ext (CFromDirectory base) (w_log w) = Some e →
  script ext base name__ argv w
  = (World (w_heap w) (w_log w ++ [ECall (CFromDirectory base)]), Raise e).
Proof.
  intros E. unfold script, mbind, M_bind.
  by rewrite (module_body_raises ext base w e E).
Qed.

Lemma default_codebase_failure_stops_the_script_witness :
  script from_directory_fails "/base" "__main__" ["script.py"]
         (World empty_heap [])
  = (World (w_heap (World empty_heap []))
           (w_log (World empty_heap []) ++ [ECall (CFromDirectory "/base")]),
     Raise no_base_error).
Proof.
  refine (default_codebase_failure_stops_the_script from_directory_fails
            "/base" "__main__" ["script.py"] (World empty_heap [])
            no_base_error _).
  reflexivity.
Defined.
